(** * AI-Mock-Interview backend: question generation and answer evaluation

    A shallow embedding of [src/backend/server.js]: the
    [EmbeddingPipeline] singleton, [generateQuestion], [evaluateAnswer]
    and [fallbackEvaluation], with the properties of the specification
    stated over it.

    Modelling conventions.
    - A JavaScript number is a rational ([Q]) or [NaN]; every arithmetic
      operation of the source is the exact operation followed by [fl], the
      rounding to IEEE 754 binary64 (nearest, ties to even).  The exponent
      range is bounded below (subnormals) but not above: no computation
      of the program reaches 2^1024.
    - A string is a sequence of code units in the range U+0000..U+00FF.
    - An [async] function runs to completion; the outcome of each awaited
      external call (the remote inference call, the model load, the
      extractor) is an input of the model.
    - [JSON.parse], the clock, [Math.random] and the functions imported
      from [@xenova/transformers] are inputs as well. *)

From Stdlib Require Import ZArith QArith Qround Qabs Qpower Lia Lqa.
From Stdlib Require Import List String Ascii DecimalString.
From stdpp Require Import gmap strings list.

Set Warnings "-register-all".
Local Open Scope Z_scope.

(* ================================================================= *)
(** ** JavaScript numbers *)

Module JsNumber.

Inductive JsNum :=
| Num (q : Q)
| NaN.

(** Nearest integer to [p/q] for [q > 0], ties to the even neighbour. *)
Definition rne (p q : Z) : Z :=
  let f := p / q in
  let r2 := 2 * (p mod q) in
  if r2 <? q then f
  else if q <? r2 then f + 1
  else if Z.even f then f else f + 1.

Definition rneQ (y : Q) : Z := rne (Qnum y) (Z.pos (Qden y)).

(** [ilog2 x] is the binary exponent of a positive rational:
    [2^(ilog2 x) <= x < 2^(ilog2 x + 1)]. *)
Definition ilog2 (x : Q) : Z :=
  let d := Z.log2 (Qnum x) - Z.log2 (Z.pos (Qden x)) in
  if Qle_bool (2 ^ d) x then d else d - 1.

(** Exponent of the unit in the last place of the binary64 number
    nearest to [x]: 53 significant bits, smallest exponent -1074. *)
Definition ulp_exp (x : Q) : Z := Z.max (ilog2 (Qabs x) - 52) (-1074).

(** Rounding of a real (here rational) result to binary64. *)
Definition fl (x : Q) : Q :=
  if Qeq_bool x 0 then 0%Q
  else let e := ulp_exp x in (inject_Z (rneQ (x / 2 ^ e)) * 2 ^ e)%Q.

(** The unit roundoff, 2^-53. *)
Definition u53 : Q := 1 # 9007199254740992.

Definition fl_add (a b : Q) : Q := fl (a + b).
Definition fl_mul (a b : Q) : Q := fl (a * b).
Definition fl_div (a b : Q) : Q := fl (a / b).

(** Nearest integer to the square root of a non-negative rational. *)
Definition rne_sqrt (z : Q) : Z :=
  let s := Z.sqrt (Qfloor z) in
  let h := (inject_Z (s * s + s) + (1 # 4))%Q in
  match (z ?= h)%Q with
  | Lt => s
  | Gt => s + 1
  | Eq => if Z.even s then s else s + 1
  end.

(** [Math.sqrt] on a non-negative number. *)
Definition fl_sqrt (x : Q) : Q :=
  if Qle_bool x 0 then 0%Q
  else let e := Z.max (ilog2 x / 2 - 52) (-1074) in
       (inject_Z (rne_sqrt (x / 2 ^ (2 * e))) * 2 ^ e)%Q.

(** [Math.round]: the nearest integer, a tie going towards +infinity. *)
Definition Math_round (x : JsNum) : JsNum :=
  match x with
  | Num q => Num (inject_Z (Qfloor (q + (1 # 2))))
  | NaN => NaN
  end.

(** [a * b], [a / b] and [a > b] on numbers. *)
Definition mul (a b : JsNum) : JsNum :=
  match a, b with
  | Num x, Num y => Num (fl_mul x y)
  | _, _ => NaN
  end.

(** A division by zero yields [NaN], as [0/0] does; the infinities are
    not modelled: the divisors of the program are the constant 1000, a
    positive token count, and a product of magnitudes, which is zero
    only for a zero vector, whose dot products are zero as well. *)
Definition div (a b : JsNum) : JsNum :=
  match a, b with
  | Num x, Num y => if Qeq_bool y 0 then NaN else Num (fl_div x y)
  | _, _ => NaN
  end.

Definition add (a b : JsNum) : JsNum :=
  match a, b with
  | Num x, Num y => Num (fl_add x y)
  | _, _ => NaN
  end.

(** [a % b]: the remainder has the sign of the dividend and is exact. *)
Definition rem (a b : JsNum) : JsNum :=
  match a, b with
  | Num x, Num y =>
      if Qeq_bool y 0 then NaN
      else let t := (x / y)%Q in
           Num (x - y * inject_Z (Z.quot (Qnum t) (Z.pos (Qden t))))%Q
  | _, _ => NaN
  end.

Definition sqrt (a : JsNum) : JsNum :=
  match a with
  | Num x => if Qle_bool 0 x then Num (fl_sqrt x) else NaN
  | NaN => NaN
  end.

Definition Math_floor (x : JsNum) : JsNum :=
  match x with
  | Num q => Num (inject_Z (Qfloor q))
  | NaN => NaN
  end.

Definition gt (a b : JsNum) : bool :=
  match a, b with
  | Num x, Num y => negb (Qle_bool x y)
  | _, _ => false
  end.

Definition of_Z (z : Z) : JsNum := Num (inject_Z z).
Definition of_nat (n : nat) : JsNum := of_Z (Z.of_nat n).

(** [l[i]]: [None] is [undefined]. *)
Definition index {A} (l : list A) (i : JsNum) : option A :=
  match i with
  | Num q =>
      if Qle_bool 0 q && Qeq_bool q (inject_Z (Qfloor q))
      then nth_error l (Z.to_nat (Qfloor q)) else None
  | NaN => None
  end.

(** The decimal literals of the source, as binary64 values. *)
Definition lit (num : Z) (den : positive) : JsNum := Num (fl (num # den)).

(** [`${n}`] for an integer-valued number or [NaN]. *)
Definition to_string (x : JsNum) : string :=
  match x with
  | Num q => NilZero.string_of_int (Z.to_int (Qfloor q))
  | NaN => "NaN"
  end.

End JsNumber.
Import JsNumber.

(* ================================================================= *)
(** ** JavaScript strings *)

Module JsString.

Definition code (c : ascii) : N := N_of_ascii c.

Definition between (lo hi : N) (c : ascii) : bool :=
  ((lo <=? code c) && (code c <=? hi))%N.

(** [\w] of a regular expression without the [u] and [i] flags. *)
Definition is_word_char (c : ascii) : bool :=
  between 48 57 c || between 65 90 c || (code c =? 95)%N || between 97 122 c.

(** [\s], and the characters removed by [String.prototype.trim]. *)
Definition is_space (c : ascii) : bool :=
  between 9 13 c || (code c =? 32)%N || (code c =? 160)%N.

Definition lower_char (c : ascii) : ascii :=
  if between 65 90 c || (between 192 222 c && negb (code c =? 215)%N)
  then ascii_of_N (code c + 32) else c.

Fixpoint toLowerCase (s : string) : string :=
  match s with
  | EmptyString => EmptyString
  | String c s' => String (lower_char c) (toLowerCase s')
  end.

Definition is_empty (s : string) : bool :=
  match s with EmptyString => true | _ => false end.

Fixpoint trimStart (s : string) : string :=
  match s with
  | EmptyString => EmptyString
  | String c s' => if is_space c then trimStart s' else s
  end.

Fixpoint trimEnd (s : string) : string :=
  match s with
  | EmptyString => EmptyString
  | String c s' =>
      let t := trimEnd s' in
      if is_space c && is_empty t then EmptyString else String c t
  end.

Definition trim (s : string) : string := trimEnd (trimStart s).

(** [s.match(/\b\w+\b/g) || []]: the maximal runs of word characters,
    from left to right; [run] is the run being read. *)
Fixpoint word_runs (run : string) (s : string) : list string :=
  match s with
  | EmptyString => if is_empty run then [] else [run]
  | String c s' =>
      if is_word_char c then word_runs (run +:+ String c EmptyString) s'
      else if is_empty run then word_runs EmptyString s'
      else run :: word_runs EmptyString s'
  end.

Definition match_words (s : string) : list string := word_runs EmptyString s.

(** The shortest prefix of [s] that ends with a closing brace. *)
Fixpoint upto_close (s : string) : option string :=
  match s with
  | EmptyString => None
  | String c s' =>
      if (code c =? 125)%N then Some (String c EmptyString)
      else option_map (String c) (upto_close s')
  end.

(** [s.match(/{[\s\S]*?}/)]: from the first opening brace to the first
    closing brace after it; [None] is the [null] of a failed match. *)
Fixpoint match_object (s : string) : option string :=
  match s with
  | EmptyString => None
  | String c s' =>
      if (code c =? 123)%N then option_map (String c) (upto_close s')
      else match_object s'
  end.

Definition nl : string := String (ascii_of_N 10) EmptyString.
Definition dquote : string := String (ascii_of_N 34) EmptyString.

End JsString.
Import JsString.

(* ================================================================= *)
(** ** Values, errors and results *)

Inductive JsVal :=
| JUndefined
| JNull
| JBool (b : bool)
| JNumber (q : Q)
| JStr (s : string)
| JArr (items : list JsVal)
| JObj (fields : list (string * JsVal)).

Inductive ErrorKind := KError | KTypeError | KReferenceError | KSyntaxError.

Record HttpResponse := { status : Z; resp_data : JsVal }.

(** A thrown value: [response] is set on the errors with which axios
    rejects after the server has answered. *)
Record JsError := {
  kind : ErrorKind;
  message : string;
  response : option HttpResponse
}.

Definition native (k : ErrorKind) (msg : string) : JsError :=
  {| kind := k; message := msg; response := None |}.

Inductive JsResult (A : Type) :=
| Ok (a : A)
| Throw (e : JsError).
Arguments Ok {A} a.
Arguments Throw {A} e.

#[global] Instance JsResult_ret : MRet JsResult := fun A a => Ok a.
#[global] Instance JsResult_bind : MBind JsResult := fun A B k r =>
  match r with
  | Ok a => k a
  | Throw e => Throw e
  end.

(** Coercion of a value to a boolean, as in [!v] and [v || w]. *)
Definition truthy (v : JsVal) : bool :=
  match v with
  | JUndefined | JNull => false
  | JBool b => b
  | JNumber q => negb (Qeq_bool q 0)
  | JStr s => negb (is_empty s)
  | JArr _ | JObj _ => true
  end.

(** [a || b]. *)
Definition or_else (a b : JsVal) : JsVal := if truthy a then a else b.

Fixpoint assoc (k : string) (fields : list (string * JsVal)) : JsVal :=
  match fields with
  | [] => JUndefined
  | (k', v) :: rest => if String.eqb k k' then v else assoc k rest
  end.

(** [v.generated_text], [v.question], [v.ideal_answer]: an own property
    of an object, [undefined] on the other values, a [TypeError] on
    [null] and [undefined]. *)
Definition get_prop (v : JsVal) (k : string) : JsResult JsVal :=
  match v with
  | JUndefined | JNull =>
      Throw (native KTypeError ("Cannot read properties of null or undefined (reading '" +:+ k +:+ "')"))
  | JObj fields => Ok (assoc k fields)
  | _ => Ok JUndefined
  end.

(** [v?.generated_text]. *)
Definition get_prop_opt (v : JsVal) (k : string) : JsVal :=
  match v with
  | JObj fields => assoc k fields
  | _ => JUndefined
  end.

(** [`${v}`] for a parameter that is a string or missing. *)
Definition template (v : option string) : string :=
  match v with
  | Some s => s
  | None => "undefined"
  end.

(* ================================================================= *)
(** ** The EmbeddingPipeline singleton *)

(** The result of the extractor: only its [data] is used. *)
Record Tensor := { data : list Q }.

(** The handle returned by [pipeline(task, model)]: called on a string,
    it returns a tensor or throws. *)
Definition Extractor := string -> JsResult Tensor.

Inductive LoadOutcome :=
| Loaded (h : Extractor)
| LoadFailed (e : JsError).

(** What the program imports from [@xenova/transformers]: [pipeline],
    whose outcome may differ from one call to the next (the argument is
    the number of earlier calls), and [cos_sim]. *)
Record Transformers := {
  pipeline : nat -> LoadOutcome;
  cos_sim : list Q -> list Q -> JsNum
}.

(** The static fields of the class. *)
Record EmbeddingPipeline := {
  instance : option Extractor;
  loading : bool;
  loadError : option JsError
}.

(** The process: the singleton, and two counters that the source does
    not have, of the calls made to [pipeline] and to the extractor. *)
Record Process := {
  EP : EmbeddingPipeline;
  pipeline_calls : nat;
  extractor_calls : nat
}.

Definition process_start : Process :=
  {| EP := {| instance := None; loading := false; loadError := None |};
     pipeline_calls := 0;
     extractor_calls := 0 |}.

Definition is_null {A} (o : option A) : bool :=
  match o with None => true | Some _ => false end.

Inductive Started :=
| Pending (p : Process)
| Cached (v : option Extractor).

(** [getInstance] up to its [await]: the guard, [loading = true] and
    the call of [pipeline]. *)
Definition getInstance_start (p : Process) : Started :=
  if is_null (instance (EP p)) && negb (loading (EP p)) then
    Pending {| EP := {| instance := instance (EP p);
                        loading := true;
                        loadError := loadError (EP p) |};
               pipeline_calls := S (pipeline_calls p);
               extractor_calls := extractor_calls p |}
  else Cached (instance (EP p)).

(** [getInstance] from the [await] on: the [try], [catch] and [finally]
    branches, and [return this.instance]. *)
Definition getInstance_settle (o : LoadOutcome) (p : Process)
  : option Extractor * Process :=
  let ep :=
    match o with
    | Loaded h => {| instance := Some h; loading := false; loadError := None |}
    | LoadFailed e => {| instance := None; loading := false; loadError := Some e |}
    end in
  (instance ep,
   {| EP := ep;
      pipeline_calls := pipeline_calls p;
      extractor_calls := extractor_calls p |}).

Definition getInstance (lib : Transformers) (p : Process)
  : option Extractor * Process :=
  match getInstance_start p with
  | Pending p1 => getInstance_settle (pipeline lib (pipeline_calls p)) p1
  | Cached v => (v, p)
  end.

(** [n] calls of [getInstance], one after the other: what each returned,
    and the process at the end. *)
Fixpoint getInstance_calls (lib : Transformers) (n : nat) (p : Process)
  : list (option Extractor) * Process :=
  match n with
  | O => ([], p)
  | S n' =>
      let '(v, p1) := getInstance lib p in
      let '(vs, p2) := getInstance_calls lib n' p1 in
      (v :: vs, p2)
  end.

(* ================================================================= *)
(** ** Question generation *)

Record QuestionResult := { question : JsVal; ideal_answer : JsVal }.

(** What [axios.post] is called with; the sampling parameters, the
    options and the timeout of the request are constants. *)
Record Request := { url : string; authorization : string; inputs : string }.

(** Everything outside the function that one call depends on. *)
Record World := {
  HF_MODEL_REPO_ID : option string;
  HF_API_KEY : option string;
  (** the successive values of [Math.random()] *)
  Math_random : nat -> Q;
  (** the awaited call: [Ok] carries [response.data], [Throw] the
      rejection (timeout, network error, status outside 2xx) *)
  axios_post : Request -> JsResult JsVal;
  JSON_parse : string -> JsResult JsVal;
  (** [Date.now()], in milliseconds *)
  Date_now : Z
}.

(** The variables that an identifier of [generateQuestion] can resolve
    to outside the function itself. *)
Inductive Binding :=
| BArray (items : list JsVal)
| BMap (entries : gmap string (list JsVal))
| BOther.

Definition HF_API_URL : string := "https://api-inference.huggingface.co/models".

(** The imports and declarations of the module, and the globals it uses. *)
Definition module_scope : gmap string Binding :=
  <["recentQuestions" := BMap ∅]>
    (list_to_map
       (map (fun x => (x, BOther))
            ["express"; "mongoose"; "cors"; "axios"; "pipeline"; "cos_sim";
             "app"; "PORT"; "HF_MODEL_REPO_ID"; "HF_API_URL"; "HF_API_KEY";
             "EmbeddingPipeline"; "generateQuestion"; "evaluateAnswer";
             "fallbackEvaluation"; "console"; "process"; "Math"; "JSON";
             "Array"; "Date"; "Error"; "Set"; "Map"])).

Definition variations : list string :=
  ["Create"; "Generate"; "Provide"; "Design"; "Formulate"].

Definition randomSeed (w : World) : JsNum :=
  Math_floor (mul (Num (Math_random w 0%nat)) (of_Z 10000)).

Definition randomVariation (w : World) : option string :=
  index variations
        (Math_floor (mul (Num (Math_random w 1%nat))
                         (of_nat (length variations)))).

Definition prompt (w : World) (topic subTopic : string)
    (difficulty : option string) : string :=
  "<start_of_turn>user" +:+ nl +:+
  template (randomVariation w) +:+ " a unique " +:+ template difficulty +:+
  " level interview question about " +:+ subTopic +:+ " in " +:+ topic +:+
  ". Make it different from common questions. Return your response in valid JSON format with exactly two fields: "
  +:+ dquote +:+ "question" +:+ dquote +:+ " and " +:+
  dquote +:+ "ideal_answer" +:+ dquote +:+ ". Question ID: " +:+
  to_string (randomSeed w) +:+ "<end_of_turn>" +:+ nl +:+
  "<start_of_turn>model" +:+ nl.

Definition request (w : World) (topic subTopic : string)
    (difficulty : option string) : Request :=
  {| url := HF_API_URL +:+ "/" +:+ template (HF_MODEL_REPO_ID w);
     authorization := "Bearer " +:+ template (HF_API_KEY w);
     inputs := prompt w topic subTopic difficulty |}.

(** "Handle response format": the text of the response. *)
Definition extract_text (data : JsVal) : JsResult JsVal :=
  match data with
  | JArr items =>
      mret (or_else (get_prop_opt (hd JUndefined items) "generated_text")
                    (JStr ""))
  | _ =>
      g ← get_prop data "generated_text";
      if truthy g then mret g
      else Throw (native KError "Unexpected response format from Hugging Face")
  end.

Definition generic_ideal_answer : string :=
  "Please provide a comprehensive answer covering the main concepts.".

(** "Try to extract JSON from the response". *)
Definition parse_text (w : World) (topic subTopic : string) (textData : JsVal)
  : JsResult QuestionResult :=
  match textData with
  | JStr s =>
      match match_object s with
      | Some m =>
          parsed ← JSON_parse w m;
          q ← get_prop parsed "question";
          a ← get_prop parsed "ideal_answer";
          mret {| question := or_else q (JStr "Could not parse question");
                  ideal_answer := or_else a (JStr "N/A") |}
      | None =>
          mret {| question :=
                    or_else (JStr (trim s))
                            (JStr ("What are the key concepts of " +:+ subTopic
                                   +:+ " in " +:+ topic +:+ "?"));
                  ideal_answer := JStr generic_ideal_answer |}
      end
  | _ => Throw (native KTypeError "textData.match is not a function")
  end.

(** "Store question in history (keep last 5)":
    [previousQuestions.push(result.question)], then a [shift] when the
    length exceeds 5.  The identifier is looked up in the scope. *)
Definition store_history (sc : gmap string Binding) (q : JsVal)
  : JsResult unit * gmap string Binding :=
  match sc !! "previousQuestions" with
  | None =>
      (Throw (native KReferenceError "previousQuestions is not defined"), sc)
  | Some (BArray items) =>
      let pushed := items ++ [q] in
      let kept := if (5 <? length pushed)%nat then tl pushed else pushed in
      (Ok tt, <["previousQuestions" := BArray kept]> sc)
  | Some _ =>
      (Throw (native KTypeError "previousQuestions.push is not a function"), sc)
  end.

(** The body of the [try]. *)
Definition try_block (w : World) (sc : gmap string Binding)
    (topic subTopic : string) (difficulty : option string)
  : JsResult QuestionResult * gmap string Binding :=
  let parsed :=
    data ← axios_post w (request w topic subTopic difficulty);
    textData ← extract_text data;
    parse_text w topic subTopic textData in
  match parsed with
  | Throw e => (Throw e, sc)
  | Ok result =>
      match store_history sc (question result) with
      | (Ok _, sc') => (Ok result, sc')
      | (Throw e, sc') => (Throw e, sc')
      end
  end.

Definition model_loading : QuestionResult :=
  {| question :=
       JStr "The AI model is currently loading. Please try again in a moment.";
     ideal_answer := JStr "N/A" |}.

Definition fallbackQuestions (topic subTopic : string) : list QuestionResult :=
  [ {| question := JStr ("Explain the concept of " +:+ subTopic +:+ " in " +:+ topic +:+ " and its practical applications.");
       ideal_answer := JStr (subTopic +:+ " is an important concept in " +:+ topic +:+ ". It involves understanding the core principles and being able to apply them in real-world scenarios.") |};
    {| question := JStr ("What are the main advantages and disadvantages of using " +:+ subTopic +:+ " in " +:+ topic +:+ "?");
       ideal_answer := JStr ("When considering " +:+ subTopic +:+ ", it's important to weigh both benefits and drawbacks in the context of " +:+ topic +:+ ".") |};
    {| question := JStr ("Can you describe a real-world scenario where " +:+ subTopic +:+ " would be particularly useful in " +:+ topic +:+ "?");
       ideal_answer := JStr (subTopic +:+ " can be applied in various scenarios within " +:+ topic +:+ ", particularly when specific requirements need to be met.") |};
    {| question := JStr ("How does " +:+ subTopic +:+ " compare to alternative approaches in " +:+ topic +:+ "?");
       ideal_answer := JStr ("Understanding the trade-offs between " +:+ subTopic +:+ " and other approaches is crucial for making informed decisions in " +:+ topic +:+ ".") |};
    {| question := JStr ("What are common mistakes developers make when implementing " +:+ subTopic +:+ " in " +:+ topic +:+ "?");
       ideal_answer := JStr ("Being aware of common pitfalls helps in implementing " +:+ subTopic +:+ " correctly in " +:+ topic +:+ " projects.") |} ].

(** [error.response?.status === 503]. *)
Definition status_is (code : Z) (e : JsError) : bool :=
  match response e with
  | Some r => status r =? code
  | None => false
  end.

Definition randomIndex (w : World) (topic subTopic : string) : JsNum :=
  rem (Math_floor (div (of_Z (Date_now w)) (of_Z 1000)))
      (of_nat (length (fallbackQuestions topic subTopic))).

(** The body of the [catch]; [None] is [undefined]. *)
Definition catch_block (w : World) (topic subTopic : string) (error : JsError)
  : JsResult (option QuestionResult) :=
  if status_is 503 error then mret (Some model_loading)
  else mret (index (fallbackQuestions topic subTopic)
                   (randomIndex w topic subTopic)).

Definition generateQuestion (w : World) (sc : gmap string Binding)
    (topic subTopic : string) (difficulty : option string)
  : JsResult (option QuestionResult) * gmap string Binding :=
  match try_block w sc topic subTopic difficulty with
  | (Ok result, sc') => (Ok (Some result), sc')
  | (Throw error, sc') => (catch_block w topic subTopic error, sc')
  end.

(* ================================================================= *)
(** ** Answer evaluation *)

Record EvaluationResult := { feedback : string; score : JsNum }.

Definition could_not_evaluate : EvaluationResult :=
  {| feedback := "Could not evaluate answer."; score := of_Z 0 |}.

(** "Fallback evaluation using simple keyword matching". *)
Definition fallbackEvaluation (userAnswer idealAnswer : string)
  : EvaluationResult :=
  let userWords : gset string :=
    list_to_set (match_words (toLowerCase userAnswer)) in
  let idealWords := match_words (toLowerCase idealAnswer) in
  if (length idealWords =? 0)%nat then could_not_evaluate
  else
    let matches := length (filter (fun word => word ∈ userWords) idealWords) in
    let score :=
      Math_round (mul (div (of_nat matches) (of_nat (length idealWords)))
                      (of_Z 100)) in
    let head :=
      "**Estimated Score: " +:+ to_string score +:+
      "%** (Using fallback evaluation)" +:+ nl +:+ nl in
    {| feedback :=
         head +:+
         (if gt score (of_Z 70) then
            "Good! Your answer covers many key concepts."
          else if gt score (of_Z 40) then
            "You're on the right track, but could expand more on key concepts."
          else
            "Your answer needs more detail. Review the ideal answer for key points.");
       score := score |}.

(** [!v] for a parameter that is a string or missing. *)
Definition falsy (v : option string) : bool :=
  match v with
  | Some s => is_empty s
  | None => true
  end.

(** [!userAnswer || !idealAnswer || idealAnswer === "N/A"]. *)
Definition cannot_evaluate (userAnswer idealAnswer : option string) : bool :=
  falsy userAnswer || falsy idealAnswer ||
  match idealAnswer with
  | Some s => String.eqb s "N/A"
  | None => false
  end.

(** The result of the embedding path for a similarity [score]. *)
Definition similarity_result (score : JsNum) : EvaluationResult :=
  let scorePercent := Math_round (mul score (of_Z 100)) in
  let head :=
    "**Similarity Score: " +:+ to_string scorePercent +:+ "%**" +:+ nl +:+ nl in
  {| feedback :=
       head +:+
       (if gt score (lit 8 10) then
          "Excellent! Your answer is very comprehensive and closely matches the key points."
        else if gt score (lit 6 10) then
          "Good job! You have the right idea, but you might be missing a few key details."
        else if gt score (lit 4 10) then
          "You're on the right track, but your answer is quite different. Try to be more specific."
        else
          "Your answer seems to be missing the main points. Let's review the ideal answer.");
     score := scorePercent |}.

Definition called_extractor (p : Process) : Process :=
  {| EP := EP p;
     pipeline_calls := pipeline_calls p;
     extractor_calls := S (extractor_calls p) |}.

(** The body of the [try] of [evaluateAnswer]. *)
Definition embedding_path (lib : Transformers) (extractor : Extractor)
    (p : Process) (userAnswer idealAnswer : string)
  : JsResult EvaluationResult * Process :=
  let p1 := called_extractor p in
  match extractor userAnswer with
  | Throw e => (Throw e, p1)
  | Ok userEmbedding =>
      let p2 := called_extractor p1 in
      match extractor idealAnswer with
      | Throw e => (Throw e, p2)
      | Ok idealEmbedding =>
          (Ok (similarity_result
                 (cos_sim lib (data userEmbedding) (data idealEmbedding))),
           p2)
      end
  end.

Definition evaluateAnswer (lib : Transformers) (p : Process)
    (userAnswer idealAnswer : option string) : EvaluationResult * Process :=
  if cannot_evaluate userAnswer idealAnswer then (could_not_evaluate, p)
  else
    let u := template userAnswer in
    let i := template idealAnswer in
    match getInstance lib p with
    | (None, p1) => (fallbackEvaluation u i, p1)
    | (Some extractor, p1) =>
        match embedding_path lib extractor p1 u i with
        | (Ok r, p2) => (r, p2)
        | (Throw _, p2) => (fallbackEvaluation u i, p2)
        end
    end.

(** The functions of [@xenova/transformers], which is not part of the
    repository, in binary64 arithmetic. *)
Module Xenova.

Fixpoint dot_from (acc : JsNum) (a b : list Q) : JsNum :=
  match a with
  | [] => acc
  | x :: a' =>
      match b with
      | [] => NaN
      | y :: b' => dot_from (add acc (mul (Num x) (Num y))) a' b'
      end
  end.

Definition dot (a b : list Q) : JsNum := dot_from (of_Z 0) a b.

Definition magnitude (a : list Q) : JsNum :=
  sqrt (fold_left (fun acc v => add acc (mul (Num v) (Num v))) a (of_Z 0)).

(** Modelled from the spec: [cos_sim] is imported from
    [@xenova/transformers] and its source is missing; the glossary gives
    it as the normalized dot-product similarity between two vectors,
    with range [-1,1]: the dot product divided by the product of the
    two magnitudes. *)
Definition cos_sim (a b : list Q) : JsNum :=
  div (dot a b) (mul (magnitude a) (magnitude b)).

End Xenova.

(* ================================================================= *)
(** ** Vocabulary of the specification *)

(** Both fields of a result are non-empty strings. *)
Definition nonempty_strings (r : QuestionResult) : Prop :=
  exists q a, r = {| question := JStr q; ideal_answer := JStr a |}
              /\ q <> "" /\ a <> "".

(** The error carries the HTTP status [code]. *)
Definition carries_status (code : Z) (e : JsError) : Prop :=
  exists r, response e = Some r /\ status r = code.

(** [Math.floor(Date.now() / 1000)], the current Unix second. *)
Definition unixSeconds (w : World) : Z :=
  Qfloor (fl_div (inject_Z (Date_now w)) (inject_Z 1000)).

(** The largest time value of an ECMAScript clock. *)
Definition max_time : Z := 8640000000000000.

(** What the reference to the undeclared [previousQuestions] throws. *)
Definition reference_error : JsError :=
  native KReferenceError "previousQuestions is not defined".

(** A load attempt has completed with a failure. *)
Definition Failed (p : Process) : Prop :=
  instance (EP p) = None /\ loading (EP p) = false /\
  exists e, loadError (EP p) = Some e.

(** The number is an integer of the interval [[lo, hi]]. *)
Definition integer_between (lo hi : Z) (x : JsNum) : Prop :=
  exists k, x = Num (inject_Z k) /\ lo <= k <= hi.

(** Every similarity that the call can obtain from [cos_sim] is a number
    between [lo] and [hi]. *)
Definition similarity_within (lo hi : Q) (lib : Transformers) (p : Process)
    (userAnswer idealAnswer : option string) : Prop :=
  forall extractor userEmbedding idealEmbedding,
    cannot_evaluate userAnswer idealAnswer = false ->
    fst (getInstance lib p) = Some extractor ->
    extractor (template userAnswer) = Ok userEmbedding ->
    extractor (template idealAnswer) = Ok idealEmbedding ->
    exists q, cos_sim lib (data userEmbedding) (data idealEmbedding) = Num q
              /\ (lo <= q /\ q <= hi)%Q.

(** The tokens of an answer: the word runs of its lower-cased text. *)
Definition tokens (s : string) : list string := match_words (toLowerCase s).

(** A non-empty run of the characters [a-z], [0-9] and [_]. *)
Definition lowercase_word (w : string) : Prop :=
  w <> "" /\
  Forall (fun c => is_word_char c = true /\ lower_char c = c)
         (list_ascii_of_string w).

(** The number of ideal tokens, counted with duplicates, that appear
    among the user tokens. *)
Definition overlap (user ideal : list string) : nat :=
  length (filter (fun w => w ∈ user) ideal).

(** [round(x)] on the exact value, a half going up. *)
Definition round_half_up (x : Q) : Z := Qfloor (x + (1 # 2)).

(** The score as the specification words it: [round(100 * m / n)]. *)
Definition spec_score (m n : nat) : Z :=
  round_half_up (inject_Z (100 * Z.of_nat m) / inject_Z (Z.of_nat n)).

(** [100 * m / n] lies exactly halfway between two integers. *)
Definition halfway (m n : nat) : Prop :=
  (200 * Z.of_nat m + Z.of_nat n) mod (2 * Z.of_nat n) = 0.

(** The integer that [Math.round((m / n) * 100)] evaluates to. *)
Definition percent (m n : Z) : Z :=
  Qfloor (fl_mul (fl_div (inject_Z m) (inject_Z n)) 100 + (1 # 2)).

(* ================================================================= *)
(** ** Concrete runs *)

Definition raw_text : string := "Sure! Here's a question: What is a hash table?".

(** The remote service answers with text that holds no JSON object. *)
Definition world_raw_text : World :=
  {| HF_MODEL_REPO_ID := Some "google/gemma-2b-it";
     HF_API_KEY := Some "hf_token";
     Math_random := fun k => match k with O => 1 # 4 | _ => 3 # 4 end;
     axios_post := fun _ => Ok (JArr [JObj [("generated_text", JStr raw_text)]]);
     JSON_parse := fun _ => Throw (native KSyntaxError "Unexpected token");
     Date_now := 1762160403250 |}.

Definition timeout_error : JsError :=
  {| kind := KError; message := "timeout of 30000ms exceeded"; response := None |}.

(** The remote call times out. *)
Definition world_timeout : World :=
  {| HF_MODEL_REPO_ID := Some "google/gemma-2b-it";
     HF_API_KEY := Some "hf_token";
     Math_random := fun k => match k with O => 1 # 4 | _ => 3 # 4 end;
     axios_post := fun _ => Throw timeout_error;
     JSON_parse := fun _ => Throw (native KSyntaxError "Unexpected token");
     Date_now := 1762160403250 |}.

Definition load_error : JsError :=
  {| kind := KError; message := "Could not locate file"; response := None |}.

Definition unit_x : Tensor := {| data := [1; 0]%Q |}.
Definition minus_unit_x : Tensor := {| data := [-1; 0]%Q |}.

(** An extractor that embeds "yes" and every other text in opposite
    directions. *)
Definition extractor0 : Extractor :=
  fun s => Ok (if String.eqb s "yes" then unit_x else minus_unit_x).

(** The first load fails, the later ones succeed. *)
Definition lib_retry : Transformers :=
  {| pipeline := fun k => match k with
                          | O => LoadFailed load_error
                          | S _ => Loaded extractor0
                          end;
     cos_sim := Xenova.cos_sim |}.

(** Every load fails. *)
Definition lib_down : Transformers :=
  {| pipeline := fun _ => LoadFailed load_error; cos_sim := Xenova.cos_sim |}.

(** Every load succeeds. *)
Definition lib_up : Transformers :=
  {| pipeline := fun _ => Loaded extractor0; cos_sim := Xenova.cos_sim |}.

(** The process after one call of [getInstance] whose load failed. *)
Definition process_failed : Process := snd (getInstance lib_retry process_start).

Definition example_user : string := "gradient descent minimizes loss".
Definition example_ideal : string :=
  "gradient descent is an optimization algorithm that minimizes loss".

(** Forty ideal tokens, of which the user answer has twenty-three. *)
Definition tie_ideal : string :=
  "a1 a2 a3 a4 a5 a6 a7 a8 a9 a10 a11 a12 a13 a14 a15 a16 a17 a18 a19 a20 a21 a22 a23 b1 b2 b3 b4 b5 b6 b7 b8 b9 b10 b11 b12 b13 b14 b15 b16 b17".
Definition tie_user : string :=
  "a1 a2 a3 a4 a5 a6 a7 a8 a9 a10 a11 a12 a13 a14 a15 a16 a17 a18 a19 a20 a21 a22 a23".

(* ================================================================= *)
(** ** The routes and the startup *)

(** What a route hands to [res.json] or [res.send]. *)
Inductive ReplyBody :=
| ErrorBody (error : string)
| QuestionBody (aiResponse : option QuestionResult)
| EvaluationBody (evaluation : EvaluationResult) (idealAnswer : option string)
| TextBody (text : string).

Record Reply := { http_status : Z; body : ReplyBody }.

(** [app.get("/")]. *)
Definition root_route : Reply :=
  {| http_status := 200; body := TextBody "AI Interviewer Backend is running!" |}.





(* ================================================================= *)
(** ** Vocabulary of the further properties *)

(** The character [c] does not occur in [s]. *)
Definition lacks (c : ascii) (s : string) : Prop :=
  ~ In c (list_ascii_of_string s).

(** Every character of [s] is white space. *)
Definition all_space (s : string) : Prop :=
  Forall (fun c => is_space c = true) (list_ascii_of_string s).

(** Neither the first nor the last character of [s] is white space. *)
Definition clean_edges (s : string) : Prop :=
  (forall c, head (list_ascii_of_string s) = Some c -> is_space c = false) /\
  (forall c, last (list_ascii_of_string s) = Some c -> is_space c = false).

(** The result that the fallback scorer builds for the integer score [k]. *)
Definition fallback_result (k : Z) : EvaluationResult :=
  let score := Num (inject_Z k) in
  let head :=
    "**Estimated Score: " +:+ to_string score +:+
    "%** (Using fallback evaluation)" +:+ nl +:+ nl in
  {| feedback :=
       head +:+
       (if gt score (of_Z 70) then
          "Good! Your answer covers many key concepts."
        else if gt score (of_Z 40) then
          "You're on the right track, but could expand more on key concepts."
        else
          "Your answer needs more detail. Review the ideal answer for key points.");
     score := score |}.

(** No load is in progress, and a cached handle goes with no error. *)
Definition settled (p : Process) : Prop :=
  loading (EP p) = false /\
  (forall h, instance (EP p) = Some h -> loadError (EP p) = None).


(** The remote call was rejected with the HTTP status 503. *)
Definition rejected_503 (w : World) (req : Request) : bool :=
  match axios_post w req with
  | Throw e => status_is 503 e
  | Ok _ => false
  end.

(** The largest value of [Math.random()]: 1 - 2^-53. *)
Definition max_random : Q := 9007199254740991 # 9007199254740992.

(** The first line of the feedback of the embedding path. *)
Definition similarity_head (k : Z) : string :=
  "**Similarity Score: " +:+ to_string (Num (inject_Z k)) +:+ "%**" +:+ nl +:+ nl.

(** The opening and the closing brace. *)
Definition open_brace : ascii := ascii_of_N 123.
Definition close_brace : ascii := ascii_of_N 125.

(** The first line of the feedback of the fallback scorer. *)
Definition fallback_head (k : Z) : string :=
  "**Estimated Score: " +:+ to_string (Num (inject_Z k)) +:+
  "%** (Using fallback evaluation)" +:+ nl +:+ nl.

(* ================================================================= *)
(** ** Further concrete runs *)

(** An extractor that throws on every text but "yes". *)
Definition broken_extractor : Extractor :=
  fun s => if String.eqb s "yes" then Ok unit_x
           else Throw (native KError "Unsupported input").

(** The model loads, with that extractor. *)
Definition lib_broken : Transformers :=
  {| pipeline := fun _ => Loaded broken_extractor; cos_sim := Xenova.cos_sim |}.

(** The process while the first load is in progress. *)
Definition process_loading : Process :=
  {| EP := {| instance := None; loading := true; loadError := None |};
     pipeline_calls := 1;
     extractor_calls := 0 |}.


(** A response text that is one JSON object. *)
Definition json_text : string :=
  "{" +:+ dquote +:+ "question" +:+ dquote +:+ ": " +:+ dquote +:+
  "What is a hash table?" +:+ dquote +:+ ", " +:+ dquote +:+ "ideal_answer" +:+
  dquote +:+ ": " +:+ dquote +:+ "A map from keys to values." +:+ dquote +:+ "}".

(** The remote service answers with a JSON object, which [JSON.parse]
    decodes. *)
Definition world_json : World :=
  {| HF_MODEL_REPO_ID := Some "google/gemma-2b-it";
     HF_API_KEY := Some "hf_token";
     Math_random := fun k => match k with O => 1 # 4 | _ => 3 # 4 end;
     axios_post := fun _ => Ok (JObj [("generated_text", JStr json_text)]);
     JSON_parse := fun s =>
       if String.eqb s json_text
       then Ok (JObj [("question", JStr "What is a hash table?");
                      ("ideal_answer", JStr "A map from keys to values.")])
       else Throw (native KSyntaxError "Unexpected token");
     Date_now := 1762160404999 |}.

(** The rejection of a call that the server answered with 503. *)
Definition service_unavailable : JsError :=
  {| kind := KError; message := "Request failed with status code 503";
     response := Some {| status := 503;
                         resp_data := JObj [("error", JStr "Model is loading")] |} |}.

(** The remote service answers 503 while its model is loading. *)
Definition world_503 : World :=
  {| HF_MODEL_REPO_ID := Some "google/gemma-2b-it";
     HF_API_KEY := Some "hf_token";
     Math_random := fun k => match k with O => 1 # 4 | _ => 3 # 4 end;
     axios_post := fun _ => Throw service_unavailable;
     JSON_parse := fun _ => Throw (native KSyntaxError "Unexpected token");
     Date_now := 1762160403250 |}.

(** The run of [world_timeout], five seconds later. *)
Definition world_timeout_later : World :=
  {| HF_MODEL_REPO_ID := HF_MODEL_REPO_ID world_timeout;
     HF_API_KEY := HF_API_KEY world_timeout;
     Math_random := Math_random world_timeout;
     axios_post := axios_post world_timeout;
     JSON_parse := JSON_parse world_timeout;
     Date_now := Date_now world_timeout + 5000 |}.

(* ================================================================= *)
(** * Properties *)

(** ** Rounding to binary64 *)

Section Rounding.

Lemma rne_near (p q : Z) : 0 < q -> 2 * Z.abs (rne p q * q - p) <= q.
Proof.
  intros Hq. unfold rne.
  pose proof (Z.div_mod p q ltac:(lia)) as Hdm.
  pose proof (Z.mod_pos_bound p q Hq) as Hm.
  repeat match goal with |- context [if ?b then _ else _] => destruct b eqn:? end; nia.
Qed.

Lemma rne_le_int (p q N : Z) : 0 < q -> p <= N * q -> rne p q <= N.
Proof.
  intros Hq Hp. unfold rne.
  pose proof (Z.div_mod p q ltac:(lia)) as Hdm.
  pose proof (Z.mod_pos_bound p q Hq) as Hm.
  assert (p / q <= N) by (apply Z.div_le_upper_bound; lia).
  assert (p / q = N -> p mod q = 0) by nia.
  repeat match goal with |- context [if ?b then _ else _] => destruct b eqn:? end; lia.
Qed.

Lemma rne_ge_int (p q N : Z) : 0 < q -> N * q <= p -> N <= rne p q.
Proof.
  intros Hq Hp. unfold rne.
  assert (N <= p / q) by (apply Z.div_le_lower_bound; lia).
  repeat match goal with |- context [if ?b then _ else _] => destruct b eqn:? end; lia.
Qed.

Lemma rneQ_near (y : Q) : (Qabs (inject_Z (rneQ y) - y) <= 1 # 2)%Q.
Proof.
  destruct y as [p q]. unfold rneQ. cbn [Qnum Qden].
  pose proof (rne_near p (Z.pos q) ltac:(lia)) as H.
  apply Qabs_Qle_condition. unfold Qle, Qminus, Qplus, Qopp, inject_Z. cbn [Qnum Qden].
  split; lia.
Qed.

Lemma rneQ_le_int (y : Q) (N : Z) : (y <= inject_Z N)%Q -> (inject_Z (rneQ y) <= inject_Z N)%Q.
Proof.
  destruct y as [p q]. unfold rneQ, Qle, inject_Z. cbn [Qnum Qden]. intros H.
  pose proof (rne_le_int p (Z.pos q) N ltac:(lia) ltac:(lia)). lia.
Qed.

Lemma rneQ_ge_int (y : Q) (N : Z) : (inject_Z N <= y)%Q -> (inject_Z N <= inject_Z (rneQ y))%Q.
Proof.
  destruct y as [p q]. unfold rneQ, Qle, inject_Z. cbn [Qnum Qden]. intros H.
  pose proof (rne_ge_int p (Z.pos q) N ltac:(lia) ltac:(lia)). lia.
Qed.

Lemma pow2_pos (e : Z) : (0 < 2 ^ e)%Q.
Proof. apply Qpower_0_lt. reflexivity. Qed.

Lemma pow2_add (a b : Z) : (2 ^ (a + b) == 2 ^ a * 2 ^ b)%Q.
Proof. apply Qpower_plus. discriminate. Qed.

Lemma pow2_Z (n : Z) : 0 <= n -> (2 ^ n == inject_Z (2 ^ n))%Q.
Proof. intros H. symmetry. apply (Zpower_Qpower 2 n H). Qed.

Lemma pow2_opp (e : Z) : (2 ^ e * 2 ^ (- e) == 1)%Q.
Proof. rewrite <- pow2_add. replace (e + - e) with 0 by lia. reflexivity. Qed.

(** bounds of a positive integer by the powers of two around it *)
Lemma log2_bounds_Q (p : Z) :
  0 < p -> (2 ^ Z.log2 p <= inject_Z p /\ inject_Z p < 2 ^ (Z.log2 p + 1))%Q.
Proof.
  intros Hp. pose proof (Z.log2_spec p Hp) as [H1 H2].
  pose proof (Z.log2_nonneg p).
  rewrite !pow2_Z by lia. rewrite <- Zle_Qle, <- Zlt_Qlt.
  replace (Z.log2 p + 1) with (Z.succ (Z.log2 p)) by lia. split; assumption.
Qed.

Lemma ilog2_spec (x : Q) :
  (0 < x)%Q -> (2 ^ ilog2 x <= x /\ x < 2 ^ (ilog2 x + 1))%Q.
Proof.
  intros Hx. destruct x as [p q]. unfold ilog2. cbn [Qnum Qden].
  assert (Hp : 0 < p) by (unfold Qlt in Hx; cbn in Hx; lia).
  destruct (log2_bounds_Q p Hp) as [Hp1 Hp2].
  destruct (log2_bounds_Q (Z.pos q) ltac:(lia)) as [Hq1 Hq2].
  set (a := Z.log2 p) in *. set (b := Z.log2 (Z.pos q)) in *.
  assert (Hx' : (p # q == inject_Z p / inject_Z (Z.pos q))%Q) by apply Qmake_Qdiv.
  assert (Hqpos : (0 < inject_Z (Z.pos q))%Q) by (rewrite <- (Zlt_Qlt 0); lia).
  pose proof (pow2_pos a) as Ha. pose proof (pow2_pos b) as Hb.
  pose proof (pow2_pos (a - b)) as Hab.
  assert (E1 : (2 ^ (a - b) * 2 ^ b == 2 ^ a)%Q)
    by (rewrite <- pow2_add; replace (a - b + b) with a by lia; reflexivity).
  assert (E2 : (2 ^ (a + 1) == 2 * 2 ^ a)%Q)
    by (rewrite pow2_add; change (2 ^ 1)%Q with 2%Q; ring).
  assert (E3 : (2 ^ (b + 1) == 2 * 2 ^ b)%Q)
    by (rewrite pow2_add; change (2 ^ 1)%Q with 2%Q; ring).
  assert (E4 : (2 ^ (a - b + 1) == 2 * 2 ^ (a - b))%Q)
    by (rewrite pow2_add; change (2 ^ 1)%Q with 2%Q; ring).
  assert (E5 : (2 * 2 ^ (a - b - 1) == 2 ^ (a - b))%Q).
  { replace (a - b) with ((a - b - 1) + 1) at 2 by lia.
    rewrite pow2_add. change (2 ^ 1)%Q with 2%Q. ring. }
  pose proof (pow2_pos (a - b - 1)) as Hab1.
  rewrite E2 in Hp2. rewrite E3 in Hq2.
  set (P := inject_Z p) in *. set (D := inject_Z (Z.pos q)) in *.
  set (A := (2 ^ a)%Q) in *. set (B := (2 ^ b)%Q) in *.
  set (C := (2 ^ (a - b))%Q) in *. set (C1 := (2 ^ (a - b - 1))%Q) in *.
  clear E2 E3. clearbody P D A B.
  destruct (Qle_bool C (p # q)) eqn:Ht.
  - apply Qle_bool_iff in Ht. split; [exact Ht|].
    rewrite E4. rewrite Hx'. apply Qlt_shift_div_r; [exact Hqpos|].
    assert (C * B <= C * D)%Q by (apply Qmult_le_l; assumption).
    clear E4 Hx Hx'. fold C C1. clearbody C C1. try clear Ht. try clear Hlt. lra.
  - assert (Hlt : (p # q < C)%Q).
    { apply Qnot_le_lt. intros Hc. apply Qle_bool_iff in Hc. congruence. }
    split.
    + rewrite Hx'. apply Qle_shift_div_l; [exact Hqpos|].
      assert (C1 * D <= C1 * (2 * B))%Q
        by (apply Qmult_le_l; [assumption | apply Qlt_le_weak; assumption]).
      assert (C1 * (2 * B) == A)%Q by (rewrite <- E1, <- E5; ring). clear E4 Hx Hx'. fold C C1. clearbody C C1. try clear Ht. try clear Hlt. lra.
    + replace (a - b - 1 + 1) with (a - b) by lia. exact Hlt.
Qed.

Lemma pow2_lt_inv (n m : Z) : (2 ^ n < 2 ^ m)%Q -> n < m.
Proof. intros H. apply (Qpower_lt_compat_l_inv 2); [exact H | reflexivity]. Qed.

Lemma Qabs_pos_eq (x : Q) : (0 < x)%Q -> Qabs x = x.
Proof.
  destruct x as [[|p|p] q]; unfold Qlt; cbn; intros H; try lia; reflexivity.
Qed.

Lemma Qeq_bool_false_pos (x : Q) : (0 < x)%Q -> Qeq_bool x 0 = false.
Proof.
  intros H. destruct (Qeq_bool x 0) eqn:E; [|reflexivity].
  apply Qeq_bool_iff in E. lra.
Qed.

(** relative error of one rounding, in the normal range *)
Lemma fl_rel_err (x : Q) :
  (2 ^ (-1022) <= x)%Q ->
  (x * (1 - u53) <= fl x /\ fl x <= x * (1 + u53))%Q.
Proof.
  intros Hn. pose proof (pow2_pos (-1022)) as Hp.
  assert (Hx : (0 < x)%Q) by lra.
  unfold fl, ulp_exp. rewrite (Qeq_bool_false_pos x Hx), (Qabs_pos_eq x Hx).
  destruct (ilog2_spec x Hx) as [Hlo Hhi].
  assert (HL : -1022 < ilog2 x + 1) by (apply pow2_lt_inv; lra).
  rewrite Z.max_l by lia.
  set (e := ilog2 x - 52).
  pose proof (pow2_pos e) as HE.
  assert (HEL : (2 ^ e * 4503599627370496 == 2 ^ ilog2 x)%Q).
  { pose proof (pow2_add e 52) as Ha.
    replace (e + 52) with (ilog2 x) in Ha by (unfold e; lia).
    rewrite Ha. reflexivity. }
  pose proof (rneQ_near (x / 2 ^ e)) as Hr.
  apply Qabs_Qle_condition in Hr. destruct Hr as [Hr1 Hr2].
  assert (Hy : (x / 2 ^ e * 2 ^ e == x)%Q).
  { set (E0 := (2 ^ e)%Q) in *. clearbody E0. field. lra. }
  set (y := (x / 2 ^ e)%Q) in *.
  set (r := inject_Z (rneQ y)) in *.
  set (E := (2 ^ e)%Q) in *.
  assert (H1 : ((r - y) * E <= (1 # 2) * E)%Q)
    by (apply Qmult_le_compat_r; lra).
  assert (H2 : (- (1 # 2) * E <= (r - y) * E)%Q)
    by (apply Qmult_le_compat_r; lra).
  unfold u53. clearbody y r E. clear Hp Hn Hhi HL. 
  set (T := (2 ^ ilog2 x)%Q) in *. clearbody T. lra.
Qed.

Lemma ulp_exp_nonpos (x : Q) :
  ~ (x == 0)%Q -> (Qabs x < 2 ^ 53)%Q -> ulp_exp x <= 0.
Proof.
  intros Hx Hb. unfold ulp_exp.
  assert (Hpos : (0 < Qabs x)%Q).
  { destruct (Qlt_le_dec 0 (Qabs x)) as [Hn|Hn]; [exact Hn|].
    exfalso. apply Hx. apply Qabs_Qle_condition in Hn. lra. }
  destruct (ilog2_spec (Qabs x) Hpos) as [Hlo _].
  assert (ilog2 (Qabs x) < 53) by (apply pow2_lt_inv; lra).
  lia.
Qed.

Lemma scale_int (e c : Z) :
  e <= 0 -> (inject_Z c / 2 ^ e == inject_Z (c * 2 ^ (- e)))%Q.
Proof.
  intros He. rewrite inject_Z_mult, <- pow2_Z by lia.
  pose proof (pow2_opp e) as Ho. pose proof (pow2_pos e) as Hp.
  set (E := (2 ^ e)%Q) in *. set (F := (2 ^ (- e))%Q) in *. clearbody E F.
  apply (Qmult_inj_r _ _ E); [lra|].
  assert (H1 : (inject_Z c / E * E == inject_Z c)%Q) by (field; lra).
  assert (H2 : (inject_Z c * F * E == inject_Z c * (E * F))%Q) by ring.
  rewrite H1, H2, Ho. ring.
Qed.

Lemma fl_le_int (x : Q) (c : Z) :
  (Qabs x < 2 ^ 53)%Q -> (x <= inject_Z c)%Q -> (fl x <= inject_Z c)%Q.
Proof.
  intros Hb Hc. unfold fl. destruct (Qeq_bool x 0) eqn:Hz.
  - apply Qeq_bool_iff in Hz. lra.
  - assert (Hnz : ~ (x == 0)%Q)
      by (intros Hq; apply Qeq_bool_iff in Hq; congruence).
    pose proof (ulp_exp_nonpos x Hnz Hb) as He.
    set (e := ulp_exp x) in *. pose proof (pow2_pos e) as HE.
    assert (Hy : (x / 2 ^ e <= inject_Z (c * 2 ^ (- e)))%Q).
    { rewrite <- scale_int by exact He. apply Qmult_le_compat_r; [exact Hc|].
      apply Qlt_le_weak, Qinv_lt_0_compat, HE. }
    apply rneQ_le_int in Hy.
    apply (Qmult_le_compat_r _ _ (2 ^ e)) in Hy; [|lra].
    rewrite <- scale_int in Hy by exact He.
    assert (Hs : (inject_Z c / 2 ^ e * 2 ^ e == inject_Z c)%Q).
    { set (E0 := (2 ^ e)%Q) in *. clearbody E0. field. lra. }
    rewrite Hs in Hy. exact Hy.
Qed.

Lemma fl_ge_int (x : Q) (c : Z) :
  (Qabs x < 2 ^ 53)%Q -> (inject_Z c <= x)%Q -> (inject_Z c <= fl x)%Q.
Proof.
  intros Hb Hc. unfold fl. destruct (Qeq_bool x 0) eqn:Hz.
  - apply Qeq_bool_iff in Hz. lra.
  - assert (Hnz : ~ (x == 0)%Q)
      by (intros Hq; apply Qeq_bool_iff in Hq; congruence).
    pose proof (ulp_exp_nonpos x Hnz Hb) as He.
    set (e := ulp_exp x) in *. pose proof (pow2_pos e) as HE.
    assert (Hy : (inject_Z (c * 2 ^ (- e)) <= x / 2 ^ e)%Q).
    { rewrite <- scale_int by exact He. apply Qmult_le_compat_r; [exact Hc|].
      apply Qlt_le_weak, Qinv_lt_0_compat, HE. }
    apply rneQ_ge_int in Hy.
    apply (Qmult_le_compat_r _ _ (2 ^ e)) in Hy; [|lra].
    rewrite <- scale_int in Hy by exact He.
    assert (Hs : (inject_Z c / 2 ^ e * 2 ^ e == inject_Z c)%Q).
    { set (E0 := (2 ^ e)%Q) in *. clearbody E0. field. lra. }
    rewrite Hs in Hy. exact Hy.
Qed.

End Rounding.

(** ** The percentage [Math.round((m / n) * 100)] *)

Section Percentage.

Lemma Qeq_bool_inject_pos (n : Z) : 0 < n -> Qeq_bool (inject_Z n) 0 = false.
Proof. intros H. apply Qeq_bool_false_pos. rewrite <- (Zlt_Qlt 0). exact H. Qed.

Lemma percent_eq (m n : Z) :
  0 < n ->
  Math_round (mul (div (of_Z m) (of_Z n)) (of_Z 100)) = Num (inject_Z (percent m n)).
Proof.
  intros Hn. unfold div, of_Z. rewrite (Qeq_bool_inject_pos n Hn). reflexivity.
Qed.

Lemma Qabs_lt_of_bounds (x : Q) (b : Q) : (- b < x)%Q -> (x < b)%Q -> (Qabs x < b)%Q.
Proof.
  intros H1 H2. apply Qabs_case; intros; lra.
Qed.

Lemma pow2_53 : (2 ^ 53 == 9007199254740992)%Q.
Proof. reflexivity. Qed.

Lemma frac_bounds (m n : Z) :
  0 <= m <= n -> 0 < n ->
  (0 <= inject_Z m / inject_Z n /\ inject_Z m / inject_Z n <= 1)%Q.
Proof.
  intros Hm Hn.
  assert (Hn' : (0 < inject_Z n)%Q) by (rewrite <- (Zlt_Qlt 0); exact Hn).
  assert (Hm0 : (0 <= inject_Z m)%Q) by (rewrite <- (Zle_Qle 0); lia).
  assert (Hmn : (inject_Z m <= inject_Z n)%Q) by (rewrite <- Zle_Qle; lia).
  split.
  - apply Qle_shift_div_l; [exact Hn'|]. lra.
  - apply Qle_shift_div_r; [exact Hn'|]. lra.
Qed.

Lemma fl_unit_interval (x : Q) :
  (0 <= x)%Q -> (x <= 1)%Q -> (0 <= fl x /\ fl x <= 1)%Q.
Proof.
  intros H0 H1.
  assert (Hb : (Qabs x < 2 ^ 53)%Q)
    by (rewrite pow2_53; apply Qabs_lt_of_bounds; lra).
  split.
  - apply (fl_ge_int x 0 Hb H0).
  - apply (fl_le_int x 1 Hb H1).
Qed.

Lemma fl_percent_interval (y : Q) :
  (0 <= y)%Q -> (y <= 1)%Q -> (0 <= fl_mul y 100 /\ fl_mul y 100 <= 100)%Q.
Proof.
  intros H0 H1. unfold fl_mul.
  assert (Hb : (Qabs (y * 100) < 2 ^ 53)%Q)
    by (rewrite pow2_53; apply Qabs_lt_of_bounds; lra).
  split.
  - apply (fl_ge_int (y * 100) 0 Hb). change (inject_Z 0) with 0%Q. lra.
  - apply (fl_le_int (y * 100) 100 Hb). change (inject_Z 100) with 100%Q. lra.
Qed.

Lemma Qfloor_between (v : Q) (lo hi : Z) :
  (inject_Z lo <= v)%Q -> (v < inject_Z (hi + 1))%Q -> lo <= Qfloor v <= hi.
Proof.
  intros H1 H2. split.
  - rewrite <- (Qfloor_Z lo). apply Qfloor_resp_le. exact H1.
  - pose proof (Qfloor_le v) as Hf.
    assert (Hlt : (inject_Z (Qfloor v) < inject_Z (hi + 1))%Q) by lra.
    rewrite <- Zlt_Qlt in Hlt. lia.
Qed.

Lemma percent_range (m n : Z) : 0 <= m <= n -> 0 < n -> 0 <= percent m n <= 100.
Proof.
  intros Hm Hn. unfold percent, fl_div.
  destruct (frac_bounds m n Hm Hn) as [Hx0 Hx1].
  destruct (fl_unit_interval _ Hx0 Hx1) as [Hy0 Hy1].
  destruct (fl_percent_interval _ Hy0 Hy1) as [Hz0 Hz1].
  apply Qfloor_between.
  - change (inject_Z 0) with 0%Q. lra.
  - change (inject_Z (100 + 1)) with 101%Q. lra.
Qed.

Lemma fl_zero (x : Q) : (x == 0)%Q -> fl x = 0%Q.
Proof.
  intros H. unfold fl. apply Qeq_bool_iff in H. rewrite H. reflexivity.
Qed.

Lemma tiny_le (e : Z) : -1022 <= e -> (2 ^ (-1022) <= 2 ^ e)%Q.
Proof. intros H. apply Qpower_le_compat_l; [exact H | discriminate]. Qed.

(** The two roundings of [(m / n) * 100] stay within 2^-45 of the
    exact [100 m / n]. *)
Lemma percent_error (m n : Z) :
  1 <= m <= n -> n <= 2 ^ 32 ->
  let t := (100 * inject_Z m / inject_Z n)%Q in
  let f := fl_mul (fl_div (inject_Z m) (inject_Z n)) 100 in
  (t - (1 # 35184372088832) <= f /\ f <= t + (1 # 35184372088832))%Q.
Proof.
  intros Hm Hn t f.
  assert (Hn0 : 0 < n) by lia.
  destruct (frac_bounds m n ltac:(lia) Hn0) as [Hx0 Hx1].
  assert (Hn' : (0 < inject_Z n)%Q) by (rewrite <- (Zlt_Qlt 0); exact Hn0).
  assert (Hm1 : (1 <= inject_Z m)%Q) by (rewrite <- (Zle_Qle 1); lia).
  assert (Hnb : (inject_Z n <= 4294967296)%Q)
    by (change 4294967296%Q with (inject_Z (2 ^ 32)); rewrite <- Zle_Qle; exact Hn).
  assert (Hxlo : ((1 # 4294967296) <= inject_Z m / inject_Z n)%Q)
    by (apply Qle_shift_div_l; [exact Hn'|]; lra).
  pose proof (tiny_le (-33) ltac:(lia)) as Ht33.
  change (2 ^ (-33))%Q with (1 # 8589934592)%Q in Ht33.
  set (T := (2 ^ (-1022))%Q) in *.
  assert (Ht : (t == 100 * (inject_Z m / inject_Z n))%Q)
    by (unfold t; field; lra).
  subst f. unfold fl_div, fl_mul.
  set (x := (inject_Z m / inject_Z n)%Q) in *.
  destruct (fl_rel_err x) as [Hy1 Hy2]; [fold T; lra|].
  set (y := fl x) in *.
  destruct (fl_rel_err (y * 100)) as [Hz1 Hz2]; [fold T; unfold u53 in *; lra|].
  set (z := fl (y * 100)) in *.
  clearbody x y z T t. unfold u53 in *. lra.
Qed.

Lemma percent_zero (n : Z) : 0 < n -> percent 0 n = 0.
Proof.
  intros Hn. unfold percent, fl_div, fl_mul.
  rewrite (fl_zero (inject_Z 0 / inject_Z n)).
  - reflexivity.
  - unfold Qdiv. change (inject_Z 0) with 0%Q. ring.
Qed.

(** [Math.round((m / n) * 100)] against the quotient rounded exactly:
    they agree unless [100 m / n] is a half, where the computed value
    may also be the integer below. *)
Lemma percent_nearest (m n : Z) :
  0 <= m <= n -> 0 < n <= 2 ^ 32 ->
  let E := (200 * m + n) / (2 * n) in
  ((200 * m + n) mod (2 * n) <> 0 -> percent m n = E) /\
  (percent m n = E \/
   (200 * m + n) mod (2 * n) = 0 /\ percent m n = E - 1).
Proof.
  intros Hm Hn E.
  pose proof (Z.div_mod (200 * m + n) (2 * n) ltac:(lia)) as Hdm.
  pose proof (Z.mod_pos_bound (200 * m + n) (2 * n) ltac:(lia)) as Hr.
  fold E in Hdm. set (R := (200 * m + n) mod (2 * n)) in *.
  destruct (Z.eq_dec m 0) as [->|Hm0].
  { rewrite (percent_zero n) by lia.
    assert (E = 0) by (unfold E; apply Z.div_small; lia).
    split; intros; [|left]; lia. }
  destruct (percent_error m n ltac:(lia) ltac:(lia)) as [Hf1 Hf2].
  unfold percent.
  set (f := fl_mul (fl_div (inject_Z m) (inject_Z n)) 100) in *.
  assert (Hn' : (0 < inject_Z n)%Q) by (rewrite <- (Zlt_Qlt 0); lia).
  assert (Hnb : (inject_Z n <= 4294967296)%Q)
    by (change 4294967296%Q with (inject_Z (2 ^ 32)); rewrite <- Zle_Qle; lia).
  set (d := (1 / (2 * inject_Z n))%Q).
  assert (Hd : (d * (2 * inject_Z n) == 1)%Q) by (unfold d; field; lra).
  assert (Hdpos : (0 < d)%Q).
  { unfold d. apply Qlt_shift_div_l; lra. }
  assert (Hdlo : ((1 # 8589934592) <= d)%Q).
  { unfold d. apply Qle_shift_div_l; lra. }
  assert (Hs : (100 * inject_Z m / inject_Z n + (1 # 2)
                == inject_Z E + inject_Z R * d)%Q).
  { assert (HQ : (inject_Z (200 * m + n) == inject_Z (2 * n * E + R))%Q)
      by (rewrite Hdm at 1; reflexivity).
    rewrite !inject_Z_plus, !inject_Z_mult in HQ.
    change (inject_Z 200) with 200%Q in HQ. change (inject_Z 2) with 2%Q in HQ.
    unfold d. field_simplify_eq; [|lra]. lra. }
  set (t := (100 * inject_Z m / inject_Z n)%Q) in *.
  assert (HR0 : (0 <= inject_Z R)%Q) by (rewrite <- (Zle_Qle 0); lia).
  assert (HRd : (inject_Z R * d <= 1 - d)%Q).
  { assert (HR1 : (inject_Z R <= 2 * inject_Z n - 1)%Q).
    { assert (HZ : (inject_Z R <= inject_Z (2 * n + -1))%Q)
        by (rewrite <- Zle_Qle; lia).
      rewrite inject_Z_plus, inject_Z_mult in HZ.
      change (inject_Z 2) with 2%Q in HZ. change (inject_Z (-1)) with (-1)%Q in HZ.
      lra. }
    apply (Qmult_le_compat_r _ _ d) in HR1; [|lra]. lra. }
  assert (HRd0 : (0 <= inject_Z R * d)%Q) by (apply Qmult_le_0_compat; lra).
  split.
  - intros HRnz.
    assert (HR1 : (1 <= inject_Z R)%Q) by (rewrite <- (Zle_Qle 1); lia).
    apply (Qmult_le_compat_r _ _ d) in HR1; [|lra].
    assert (E <= Qfloor (f + (1 # 2)) <= E); [|lia].
    apply Qfloor_between; [lra|].
    rewrite inject_Z_plus. change (inject_Z 1) with 1%Q. lra.
  - destruct (Z.eq_dec R 0) as [HRz|HRnz].
    + assert (E - 1 <= Qfloor (f + (1 # 2)) <= E).
      { rewrite HRz in Hs. change (inject_Z 0) with 0%Q in Hs.
        apply Qfloor_between.
        - replace (E - 1) with (E + (-1)) by lia.
          rewrite inject_Z_plus. change (inject_Z (-1)) with (-1)%Q. lra.
        - rewrite inject_Z_plus. change (inject_Z 1) with 1%Q. lra. }
      lia.
    + left.
      assert (HR1 : (1 <= inject_Z R)%Q) by (rewrite <- (Zle_Qle 1); lia).
      apply (Qmult_le_compat_r _ _ d) in HR1; [|lra].
      assert (E <= Qfloor (f + (1 # 2)) <= E); [|lia].
      apply Qfloor_between; [lra|].
      rewrite inject_Z_plus. change (inject_Z 1) with 1%Q. lra.
Qed.

Lemma percent_closest (m n : Z) :
  0 <= m <= n -> 0 < n <= 2 ^ 32 -> 2 * Z.abs (percent m n * n - 100 * m) <= n.
Proof.
  intros Hm Hn.
  pose proof (Z.div_mod (200 * m + n) (2 * n) ltac:(lia)) as Hdm.
  pose proof (Z.mod_pos_bound (200 * m + n) (2 * n) ltac:(lia)) as Hr.
  destruct (percent_nearest m n Hm Hn) as [_ [H|[H0 H]]]; rewrite H; nia.
Qed.

End Percentage.

(** ** The fallback index [Math.floor(Date.now() / 1000) % 5] *)

Section Clock.

Lemma fl_nonneg (x : Q) : (0 <= x)%Q -> (0 <= fl x)%Q.
Proof.
  intros Hx. unfold fl. destruct (Qeq_bool x 0); [apply Qle_refl|].
  set (e := ulp_exp x). pose proof (pow2_pos e) as HE.
  assert (Hy : (inject_Z 0 <= x / 2 ^ e)%Q).
  { change (inject_Z 0) with 0%Q. apply Qle_shift_div_l; [exact HE|]. lra. }
  apply rneQ_ge_int in Hy. change (inject_Z 0) with 0%Q in Hy.
  apply Qmult_le_0_compat; lra.
Qed.

(** The quotient by 1000 is computed in binary64, and its floor is the
    integer quotient all the same. *)
Lemma seconds_exact (now : Z) :
  0 <= now <= 8640000000000000 ->
  Qfloor (fl_div (inject_Z now) (inject_Z 1000)) = now / 1000.
Proof.
  intros Hnow. unfold fl_div.
  pose proof (Z.div_mod now 1000 ltac:(lia)) as Hdm.
  pose proof (Z.mod_pos_bound now 1000 ltac:(lia)) as Hr.
  set (k := now / 1000) in *. set (r := now mod 1000) in *.
  destruct (Z.eq_dec now 0) as [H0|H0].
  { assert (k = 0) by lia. rewrite fl_zero; [symmetry; assumption|].
    rewrite H0. reflexivity. }
  assert (HQ : (inject_Z now == 1000 * inject_Z k + inject_Z r)%Q).
  { rewrite Hdm at 1. rewrite inject_Z_plus, inject_Z_mult. reflexivity. }
  assert (Hnow1 : (1 <= inject_Z now)%Q) by (rewrite <- (Zle_Qle 1); lia).
  assert (Hnow2 : (inject_Z now <= 8640000000000000)%Q)
    by (change 8640000000000000%Q with (inject_Z 8640000000000000);
        rewrite <- Zle_Qle; lia).
  assert (Hr1 : (inject_Z r <= 999)%Q)
    by (change 999%Q with (inject_Z 999); rewrite <- Zle_Qle; lia).
  assert (Hr0 : (0 <= inject_Z r)%Q) by (rewrite <- (Zle_Qle 0); lia).
  assert (Hx : (inject_Z now / inject_Z 1000 == inject_Z now * (1 # 1000))%Q)
    by reflexivity.
  set (x := (inject_Z now / inject_Z 1000)%Q) in *.
  pose proof (tiny_le (-10) ltac:(lia)) as Ht.
  change (2 ^ (-10))%Q with (1 # 1024)%Q in Ht.
  destruct (fl_rel_err x) as [_ Hup]; [lra|].
  assert (Hb : (Qabs x < 2 ^ 53)%Q)
    by (rewrite pow2_53; apply Qabs_lt_of_bounds; lra).
  pose proof (fl_ge_int x k Hb ltac:(lra)) as Hlo.
  assert (k <= Qfloor (fl x) <= k); [|lia].
  apply Qfloor_between; [exact Hlo|].
  rewrite inject_Z_plus. change (inject_Z 1) with 1%Q.
  unfold u53 in Hup. lra.
Qed.

Lemma seconds_nonneg (now : Z) :
  0 <= now -> 0 <= Qfloor (fl_div (inject_Z now) (inject_Z 1000)).
Proof.
  intros Hnow. unfold fl_div.
  assert (Hx : (0 <= inject_Z now / inject_Z 1000)%Q).
  { apply Qle_shift_div_l; [reflexivity|].
    assert (0 <= inject_Z now)%Q by (rewrite <- (Zle_Qle 0); lia). lra. }
  apply fl_nonneg in Hx.
  rewrite <- (Qfloor_Z 0). apply Qfloor_resp_le. exact Hx.
Qed.

(** [l[k % d]] for a non-negative integer [k]. *)
Lemma index_rem {A} (l : list A) (k : Z) (d : positive) :
  0 <= k ->
  index l (rem (Num (inject_Z k)) (Num (inject_Z (Z.pos d))))
  = nth_error l (Z.to_nat (k mod Z.pos d)).
Proof.
  intros Hk. unfold rem, index.
  rewrite Qeq_bool_inject_pos by lia.
  assert (Hn : Qnum (inject_Z k / inject_Z (Z.pos d)) = k * 1) by reflexivity.
  assert (Hd : QDen (inject_Z k / inject_Z (Z.pos d)) = Z.pos d) by reflexivity.
  rewrite Hn, Hd, Z.mul_1_r, Z.quot_div_nonneg by lia.
  set (q := (inject_Z k - inject_Z (Z.pos d) * inject_Z (k / Z.pos d))%Q).
  assert (Hq : (q == inject_Z (k mod Z.pos d))%Q).
  { unfold q, Qminus. rewrite <- inject_Z_mult, <- inject_Z_opp, <- inject_Z_plus.
    rewrite Z.mod_eq by lia. reflexivity. }
  pose proof (Z.mod_pos_bound k (Z.pos d) ltac:(lia)) as Hm.
  assert (Hf : Qfloor q = k mod Z.pos d) by (rewrite Hq; apply Qfloor_Z).
  assert (H1 : Qle_bool 0 q = true).
  { apply Qle_bool_iff. rewrite Hq, <- (Zle_Qle 0). lia. }
  assert (H2 : Qeq_bool q (inject_Z (Qfloor q)) = true).
  { apply Qeq_bool_iff. rewrite Hf. exact Hq. }
  rewrite H1, H2, Hf. reflexivity.
Qed.

Lemma randomIndex_eq (w : World) (topic subTopic : string) :
  randomIndex w topic subTopic
  = rem (Num (inject_Z (unixSeconds w))) (Num (inject_Z 5)).
Proof. reflexivity. Qed.

Lemma catch_index (w : World) (topic subTopic : string) :
  0 <= Date_now w ->
  index (fallbackQuestions topic subTopic) (randomIndex w topic subTopic)
  = nth_error (fallbackQuestions topic subTopic)
              (Z.to_nat (unixSeconds w mod 5)).
Proof.
  intros Hnow. rewrite randomIndex_eq.
  apply (index_rem _ _ 5%positive). apply seconds_nonneg. exact Hnow.
Qed.

Lemma unixSeconds_exact (w : World) :
  0 <= Date_now w <= max_time -> unixSeconds w = Date_now w / 1000.
Proof. apply seconds_exact. Qed.

End Clock.

(** ** Question generation *)

Section QuestionGeneration.

Lemma append_nonempty_r (s1 s2 : string) : s2 <> "" -> s1 +:+ s2 <> "".
Proof. destruct s1; cbn; [auto | discriminate]. Qed.

Lemma fallbackQuestions_nonempty (topic subTopic : string) (j : nat) :
  (j < 5)%nat ->
  exists r, nth_error (fallbackQuestions topic subTopic) j = Some r
            /\ nonempty_strings r.
Proof.
  intros Hj.
  do 5 (destruct j as [|j]; [eexists; split; [reflexivity|];
    eexists _, _; split; [reflexivity|];
    split; try discriminate; apply append_nonempty_r; discriminate |]).
  lia.
Qed.

(** Where [previousQuestions] is not bound, the [try] never completes. *)
Lemma try_block_throws (w : World) (sc : gmap string Binding)
    (topic subTopic : string) (difficulty : option string) :
  sc !! "previousQuestions" = None ->
  exists e, try_block w sc topic subTopic difficulty = (Throw e, sc).
Proof.
  intros Hsc. unfold try_block, store_history. rewrite Hsc.
  match goal with |- context [match ?r with Ok _ => _ | Throw _ => _ end] =>
    destruct r end; eexists; reflexivity.
Qed.

Lemma status_is_spec (code : Z) (e : JsError) :
  status_is code e = true <-> carries_status code e.
Proof.
  unfold status_is, carries_status. destruct (response e) as [r|].
  - rewrite Z.eqb_eq. split; [intros H; exists r; auto|].
    intros (r' & Hr & Hs). congruence.
  - split; [discriminate|]. intros (r' & Hr & _). discriminate.
Qed.

Lemma generateQuestion_catch (w : World) (sc : gmap string Binding)
    (topic subTopic : string) (difficulty : option string) (error : JsError) :
  fst (try_block w sc topic subTopic difficulty) = Throw error ->
  fst (generateQuestion w sc topic subTopic difficulty)
  = catch_block w topic subTopic error.
Proof.
  unfold generateQuestion.
  destruct (try_block w sc topic subTopic difficulty) as [[r|e] sc']; cbn;
    intros H; [discriminate | congruence].
Qed.

(** The scope of the module binds a [Map] and opaque values, no array. *)
Lemma module_scope_bindings (name : string) (b : Binding) :
  module_scope !! name = Some b -> b = BMap ∅ \/ b = BOther.
Proof.
  unfold module_scope. intros H. apply lookup_insert_Some in H.
  destruct H as [[_ H]|[_ H]]; [left; congruence|].
  right. apply elem_of_list_to_map_2 in H.
  apply list_elem_of_fmap in H. destruct H as (x & Hx & _). congruence.
Qed.

(** What the history statements do where [previousQuestions] is bound
    to an array of at most five questions. *)
Lemma store_history_declared (sc : gmap string Binding)
    (items : list JsVal) (q : JsVal) :
  sc !! "previousQuestions" = Some (BArray items) ->
  (length items <= 5)%nat ->
  exists kept,
    store_history sc q = (Ok tt, <["previousQuestions" := BArray kept]> sc) /\
    (length kept <= 5)%nat /\ last kept = Some q.
Proof.
  intros Hsc Hlen. unfold store_history. rewrite Hsc.
  eexists. split; [reflexivity|].
  destruct (5 <? length (items ++ [q]))%nat eqn:Hc.
  - destruct items as [|x items]; cbn in *; [discriminate|].
    rewrite length_app in *. cbn in *. split; [lia|]. apply last_snoc.
  - apply Nat.ltb_ge in Hc. split; [exact Hc | apply last_snoc].
Qed.

(** C1. Whatever the remote call does (success with any body, timeout,
    network error, status outside 2xx), whatever [JSON.parse] and
    [Math.random] return, and for every topic, subTopic and difficulty
    (empty ones too), [generateQuestion] does not throw: it returns a
    result whose [question] and [ideal_answer] are non-empty strings.
    The clock is assumed not to be before the epoch. *)
Theorem generateQuestion_never_fails (w : World) (topic subTopic : string)
    (difficulty : option string) :
  0 <= Date_now w ->
  exists r,
    generateQuestion w module_scope topic subTopic difficulty
    = (Ok (Some r), module_scope)
    /\ nonempty_strings r.
Proof.
  intros Hnow.
  destruct (try_block_throws w module_scope topic subTopic difficulty) as [e He];
    [reflexivity|].
  unfold generateQuestion. rewrite He. unfold catch_block.
  destruct (status_is 503 e).
  - exists model_loading. split; [reflexivity|].
    eexists _, _. split; [reflexivity|]. split; discriminate.
  - rewrite catch_index by exact Hnow.
    destruct (fallbackQuestions_nonempty topic subTopic
                (Z.to_nat (unixSeconds w mod 5))) as (r & Hr & Hne).
    { pose proof (Z.mod_pos_bound (unixSeconds w) 5 ltac:(lia)). lia. }
    exists r. cbn [mret JsResult_ret]. rewrite Hr. split; [reflexivity | exact Hne].
Qed.

(** C1, at a run in which the remote call times out. *)
Lemma generateQuestion_never_fails_witness :
  exists r,
    generateQuestion world_timeout module_scope "Python" "Decorators" None
    = (Ok (Some r), module_scope)
    /\ nonempty_strings r.
Proof. apply (generateQuestion_never_fails world_timeout). vm_compute. discriminate. Defined.

(** C5. When the [try] throws [error] (the rejection of the remote call
    or an error raised while the response is read): an error that
    carries the HTTP status 503 yields the fixed "model is currently
    loading" pair; every other error yields the template of index
    [floor(now / 1000) mod 5] among the five templates built from topic
    and subTopic, so that two calls in the same second select the same. *)
Theorem fallback_question_selection (w : World) (sc : gmap string Binding)
    (topic subTopic : string) (difficulty : option string) (error : JsError) :
  fst (try_block w sc topic subTopic difficulty) = Throw error ->
  0 <= Date_now w <= max_time ->
  let result := fst (generateQuestion w sc topic subTopic difficulty) in
  let templates := fallbackQuestions topic subTopic in
  (carries_status 503 error -> result = Ok (Some model_loading)) /\
  (~ carries_status 503 error ->
   length templates = 5%nat /\
   exists r, result = Ok (Some r) /\
             nth_error templates (Z.to_nat ((Date_now w / 1000) mod 5)) = Some r) /\
  (forall w', 0 <= Date_now w' <= max_time ->
              Date_now w' / 1000 = Date_now w / 1000 ->
              catch_block w' topic subTopic error = catch_block w topic subTopic error).
Proof.
  intros Htry Hnow result templates. subst result.
  rewrite (generateQuestion_catch _ _ _ _ _ _ Htry). unfold catch_block.
  split; [|split].
  - intros H. apply status_is_spec in H. rewrite H. reflexivity.
  - intros H. destruct (status_is 503 error) eqn:Hs;
      [exfalso; apply H, status_is_spec, Hs|].
    split; [reflexivity|].
    rewrite catch_index, unixSeconds_exact by lia.
    destruct (fallbackQuestions_nonempty topic subTopic
                (Z.to_nat ((Date_now w / 1000) mod 5))) as (r & Hr & _).
    { pose proof (Z.mod_pos_bound (Date_now w / 1000) 5 ltac:(lia)). lia. }
    exists r. fold templates in Hr |- *. rewrite Hr. split; reflexivity.
  - intros w' Hnow' Hsame. destruct (status_is 503 error); [reflexivity|].
    rewrite !catch_index, !unixSeconds_exact, Hsame by lia. reflexivity.
Qed.

(** C5, at a timeout in second 1762160403: the template of index 3. *)
Lemma fallback_question_selection_witness :
  ~ carries_status 503 timeout_error /\
  exists r,
    fst (generateQuestion world_timeout module_scope "Python" "Decorators" None)
    = Ok (Some r) /\
    nth_error (fallbackQuestions "Python" "Decorators") 3 = Some r.
Proof.
  assert (Hn : ~ carries_status 503 timeout_error)
    by (intros (r & Hr & _); discriminate).
  split; [exact Hn|].
  destruct (fallback_question_selection world_timeout module_scope
              "Python" "Decorators" None timeout_error) as (_ & H & _).
  - reflexivity.
  - unfold max_time; cbn; lia.
  - destruct (H Hn) as (_ & r & H1 & H2). exists r. split; [exact H1 | exact H2].
Defined.

(** C10. Whenever the remote response is accepted and parsed, on the
    JSON-object path and on the raw-text path alike, the reference to
    [previousQuestions], which no scope binds, throws inside the [try]:
    the call returns the fallback template selected by the current
    second, not the parsed pair.  The scope, and with it the declared
    [recentQuestions], is returned as it was received, and the result
    is the same for every content of that scope. *)
Theorem parsed_result_unreachable (w : World) (sc : gmap string Binding)
    (topic subTopic : string) (difficulty : option string)
    (data textData : JsVal) (result : QuestionResult) :
  sc !! "previousQuestions" = None ->
  axios_post w (request w topic subTopic difficulty) = Ok data ->
  extract_text data = Ok textData ->
  parse_text w topic subTopic textData = Ok result ->
  0 <= Date_now w <= max_time ->
  try_block w sc topic subTopic difficulty = (Throw reference_error, sc) /\
  (exists r,
     generateQuestion w sc topic subTopic difficulty = (Ok (Some r), sc) /\
     nth_error (fallbackQuestions topic subTopic)
               (Z.to_nat ((Date_now w / 1000) mod 5)) = Some r) /\
  module_scope !! "previousQuestions" = None /\
  module_scope !! "recentQuestions" = Some (BMap ∅).
Proof.
  intros Hsc Hpost Htext Hparse Hnow.
  assert (Htry : try_block w sc topic subTopic difficulty
                 = (Throw reference_error, sc)).
  { unfold try_block, store_history. rewrite Hpost. cbn [mbind JsResult_bind].
    rewrite Htext. cbn [mbind JsResult_bind]. rewrite Hparse, Hsc. reflexivity. }
  split; [exact Htry|]. split; [|split; reflexivity].
  unfold generateQuestion. rewrite Htry. unfold catch_block.
  change (status_is 503 reference_error) with false. cbn [mret JsResult_ret].
  rewrite catch_index, unixSeconds_exact by lia.
  destruct (fallbackQuestions_nonempty topic subTopic
              (Z.to_nat ((Date_now w / 1000) mod 5))) as (r & Hr & _).
  { pose proof (Z.mod_pos_bound (Date_now w / 1000) 5 ltac:(lia)). lia. }
  exists r. rewrite Hr. split; reflexivity.
Qed.

(** C10, at a response that the raw-text path parses. *)
Lemma parsed_result_unreachable_witness :
  exists r,
    generateQuestion world_raw_text module_scope
      "Data Structures" "Hash Tables" (Some "medium")
    = (Ok (Some r), module_scope) /\
    nth_error (fallbackQuestions "Data Structures" "Hash Tables") 3 = Some r.
Proof.
  destruct (parsed_result_unreachable world_raw_text module_scope
              "Data Structures" "Hash Tables" (Some "medium")
              (JArr [JObj [("generated_text", JStr raw_text)]])
              (JStr raw_text)
              {| question := JStr raw_text;
                 ideal_answer := JStr generic_ideal_answer |})
    as (_ & H & _).
  - reflexivity.
  - reflexivity.
  - reflexivity.
  - reflexivity.
  - unfold max_time; cbn; lia.
  - exact H.
Defined.

(** C3. The response text of the specification's example holds no JSON
    object, and the raw-text path builds the pair the claim describes;
    yet [generateQuestion] returns a fallback template, because the
    history statement throws before [return result]. *)
Example raw_text_response_lost :
  let data := JArr [JObj [("generated_text", JStr raw_text)]] in
  axios_post world_raw_text
    (request world_raw_text "Data Structures" "Hash Tables" (Some "medium"))
  = Ok data /\
  extract_text data = Ok (JStr raw_text) /\
  match_object raw_text = None /\
  parse_text world_raw_text "Data Structures" "Hash Tables" (JStr raw_text)
  = Ok {| question := JStr raw_text; ideal_answer := JStr generic_ideal_answer |} /\
  fst (generateQuestion world_raw_text module_scope
         "Data Structures" "Hash Tables" (Some "medium"))
  = Ok (Some {| question :=
                  JStr "How does Hash Tables compare to alternative approaches in Data Structures?";
                ideal_answer :=
                  JStr "Understanding the trade-offs between Hash Tables and other approaches is crucial for making informed decisions in Data Structures." |}).
Proof. vm_compute. repeat split. Qed.

(** C4. After a call that parsed the remote response, nothing has been
    stored: the scope is unchanged, it binds no [previousQuestions],
    and none of its bindings is an array. *)
Example question_history_not_stored :
  snd (generateQuestion world_raw_text module_scope
         "Data Structures" "Hash Tables" (Some "medium"))
  = module_scope /\
  module_scope !! "previousQuestions" = None /\
  (forall name items, module_scope !! name <> Some (BArray items)).
Proof.
  split; [vm_compute; reflexivity|]. split; [reflexivity|].
  intros name items H. apply module_scope_bindings in H.
  destruct H; discriminate.
Qed.

End QuestionGeneration.

(** ** The EmbeddingPipeline singleton *)

Section Singleton.

Lemma getInstance_ready (lib : Transformers) (p : Process) (h : Extractor) :
  instance (EP p) = Some h -> getInstance lib p = (Some h, p).
Proof.
  intros H. unfold getInstance, getInstance_start. rewrite H. reflexivity.
Qed.

Lemma getInstance_loading (lib : Transformers) (p : Process) :
  loading (EP p) = true -> getInstance lib p = (instance (EP p), p).
Proof.
  intros H. unfold getInstance, getInstance_start. rewrite H.
  rewrite andb_false_r. reflexivity.
Qed.

Lemma getInstance_idle (lib : Transformers) (p : Process) :
  instance (EP p) = None -> loading (EP p) = false ->
  getInstance lib p
  = getInstance_settle (pipeline lib (pipeline_calls p))
      {| EP := {| instance := None; loading := true;
                  loadError := loadError (EP p) |};
         pipeline_calls := S (pipeline_calls p);
         extractor_calls := extractor_calls p |}.
Proof.
  intros H1 H2. unfold getInstance, getInstance_start. rewrite H1, H2. reflexivity.
Qed.

Lemma calls_ready (lib : Transformers) (n : nat) (p : Process) (h : Extractor) :
  instance (EP p) = Some h ->
  getInstance_calls lib n p = (repeat (Some h) n, p).
Proof.
  intros H. induction n as [|n IH]; [reflexivity|].
  cbn [getInstance_calls repeat]. rewrite (getInstance_ready lib p h H), IH.
  reflexivity.
Qed.

Lemma calls_failing (lib : Transformers) (n : nat) :
  (forall k, exists e, pipeline lib k = LoadFailed e) ->
  forall p, instance (EP p) = None -> loading (EP p) = false ->
  fst (getInstance_calls lib n p) = repeat None n /\
  pipeline_calls (snd (getInstance_calls lib n p)) = (pipeline_calls p + n)%nat.
Proof.
  intros Hfail. induction n as [|n IH]; intros p H1 H2.
  - cbn. split; [reflexivity | lia].
  - cbn [getInstance_calls]. rewrite (getInstance_idle lib p H1 H2).
    destruct (Hfail (pipeline_calls p)) as [e He]. rewrite He.
    cbn [getInstance_settle instance].
    match goal with |- context [getInstance_calls lib n ?q] =>
      destruct (IH q eq_refl eq_refl) as [IH1 IH2];
      destruct (getInstance_calls lib n q) as [vs p2] end.
    cbn in *. split; [congruence | lia].
Qed.

(** C2, refuted: after a first load attempt that failed (instance null,
    loadError set, loading false), the next call of [getInstance] starts
    a second load attempt and returns the handle that this attempt
    loaded. *)
Lemma getInstance_retries_after_failure :
  Failed process_failed /\
  fst (getInstance lib_retry process_failed) = Some extractor0 /\
  pipeline_calls process_failed = 1%nat /\
  pipeline_calls (snd (getInstance lib_retry process_failed)) = 2%nat.
Proof.
  split; [|repeat split].
  split; [reflexivity|]. split; [reflexivity|]. exists load_error. reflexivity.
Qed.

(** C2, amended.  Once a load has succeeded, every later call returns
    the cached handle and leaves the process as it is, so that no
    further load is started.  A call made while a load is in progress
    returns the current instance and starts nothing.  A call that finds
    the instance null and no load in progress, which is the state that a
    failed load leaves, starts exactly one new load attempt and returns
    its outcome: the handle, or null with [loadError] set.  When every
    load fails, [n] calls make [n] load attempts. *)
Theorem getInstance_load_attempts (lib : Transformers) (p : Process) :
  (forall h, instance (EP p) = Some h ->
     forall n, getInstance_calls lib n p = (repeat (Some h) n, p)) /\
  (loading (EP p) = true -> getInstance lib p = (instance (EP p), p)) /\
  (instance (EP p) = None -> loading (EP p) = false ->
     let '(v, p') := getInstance lib p in
     pipeline_calls p' = S (pipeline_calls p) /\
     loading (EP p') = false /\
     instance (EP p') = v /\
     match pipeline lib (pipeline_calls p) with
     | Loaded h => v = Some h /\ loadError (EP p') = None
     | LoadFailed e => v = None /\ loadError (EP p') = Some e
     end) /\
  ((forall k, exists e, pipeline lib k = LoadFailed e) ->
     forall n,
       fst (getInstance_calls lib n process_start) = repeat None n /\
       pipeline_calls (snd (getInstance_calls lib n process_start)) = n).
Proof.
  split; [|split; [|split]].
  - intros h H n. apply calls_ready. exact H.
  - apply getInstance_loading.
  - intros H1 H2. rewrite (getInstance_idle lib p H1 H2).
    destruct (pipeline lib (pipeline_calls p)); cbn; repeat split.
  - intros Hfail n.
    destruct (calls_failing lib n Hfail process_start eq_refl eq_refl) as [Ha Hb].
    split; [exact Ha | exact Hb].
Qed.

(** C2 amended, at three calls while the model cannot be loaded. *)
Lemma getInstance_load_attempts_witness :
  fst (getInstance_calls lib_down 3 process_start) = [None; None; None] /\
  pipeline_calls (snd (getInstance_calls lib_down 3 process_start)) = 3%nat.
Proof.
  destruct (getInstance_load_attempts lib_down process_start) as (_ & _ & _ & H).
  apply (H ltac:(intros k; exists load_error; reflexivity) 3%nat).
Defined.

End Singleton.

(** ** The fallback scorer *)

Section FallbackScorer.

Lemma lower_char_idem (c : ascii) : lower_char (lower_char c) = lower_char c.
Proof.
  destruct c as [[] [] [] [] [] [] [] []]; reflexivity.
Qed.

Lemma toLowerCase_chars (s : string) :
  Forall (fun c => lower_char c = c) (list_ascii_of_string (toLowerCase s)).
Proof.
  induction s as [|c s IH]; cbn; constructor; [apply lower_char_idem | exact IH].
Qed.

Lemma chars_snoc (run : string) (c : ascii) :
  list_ascii_of_string (run +:+ String c EmptyString)
  = list_ascii_of_string run ++ [c].
Proof.
  induction run as [|d run IH]; [reflexivity|].
  change (String d run +:+ String c EmptyString)
    with (String d (run +:+ String c EmptyString)).
  cbn [list_ascii_of_string]. rewrite IH. reflexivity.
Qed.

Lemma is_empty_false (s : string) : is_empty s = false -> s <> "".
Proof. destruct s; [discriminate | discriminate]. Qed.

Lemma word_runs_words (s run : string) :
  Forall (fun c => is_word_char c = true /\ lower_char c = c)
         (list_ascii_of_string run) ->
  Forall (fun c => lower_char c = c) (list_ascii_of_string s) ->
  Forall lowercase_word (word_runs run s).
Proof.
  revert run. induction s as [|c s IH]; intros run Hrun Hs; cbn [word_runs].
  - destruct (is_empty run) eqn:He; constructor; [|constructor].
    split; [apply is_empty_false, He | exact Hrun].
  - cbn in Hs. inversion Hs as [|? ? Hc Hs']; subst.
    destruct (is_word_char c) eqn:Hw.
    + apply IH; [|exact Hs']. rewrite chars_snoc. apply Forall_app.
      split; [exact Hrun|]. constructor; [split; assumption | constructor].
    + destruct (is_empty run) eqn:He.
      * apply IH; [constructor | exact Hs'].
      * constructor; [split; [apply is_empty_false, He | exact Hrun]|].
        apply IH; [constructor | exact Hs'].
Qed.

Lemma tokens_words (s : string) : Forall lowercase_word (tokens s).
Proof.
  unfold tokens, match_words. apply word_runs_words; [constructor|].
  apply toLowerCase_chars.
Qed.

Lemma spec_score_div (m n : nat) :
  (0 < n)%nat ->
  spec_score m n = (200 * Z.of_nat m + Z.of_nat n) / (2 * Z.of_nat n).
Proof.
  intros Hn. unfold spec_score, round_half_up.
  destruct (Z.of_nat n) as [|pn|pn] eqn:En; try lia.
  assert (H : (inject_Z (100 * Z.of_nat m) / inject_Z (Z.pos pn) + (1 # 2)
               == (200 * Z.of_nat m + Z.pos pn) # (2 * pn))%Q).
  { rewrite (Qmake_Qdiv (200 * Z.of_nat m + Z.pos pn) (2 * pn)).
    change (Z.pos (2 * pn)) with (2 * Z.pos pn).
    rewrite !inject_Z_plus, !inject_Z_mult.
    change (inject_Z 100) with 100%Q. change (inject_Z 200) with 200%Q.
    change (inject_Z 2) with 2%Q.
    assert (0 < inject_Z (Z.pos pn))%Q by reflexivity.
    field. lra. }
  rewrite H. reflexivity.
Qed.

(** Membership in the [Set] of user words is membership in their list. *)
Lemma fallback_matches (u i : string) :
  length (filter (fun word => word ∈ (list_to_set (tokens u) : gset string))
                 (tokens i))
  = overlap (tokens u) (tokens i).
Proof.
  unfold overlap. f_equal. apply list_filter_iff. intros w.
  apply elem_of_list_to_set.
Qed.

Lemma fallback_score_range (u i : string) :
  integer_between 0 100 (score (fallbackEvaluation u i)).
Proof.
  unfold fallbackEvaluation.
  set (userWords := list_to_set (match_words (toLowerCase u)) : gset string).
  set (idealWords := match_words (toLowerCase i)).
  destruct (length idealWords =? 0)%nat eqn:Hn.
  - exists 0. split; [reflexivity | lia].
  - apply Nat.eqb_neq in Hn. cbn [score].
    set (m := length (filter (fun word => word ∈ userWords) idealWords)).
    assert (Hm : (m <= length idealWords)%nat) by apply length_filter.
    unfold of_nat. rewrite percent_eq by lia.
    exists (percent (Z.of_nat m) (Z.of_nat (length idealWords))).
    split; [reflexivity|]. apply percent_range; lia.
Qed.

(** C8, refuted: with 23 of 40 ideal tokens matched, [round(100 * 23 / 40)]
    is [round(57.5) = 58], and the code scores 57: the quotient 23/40 is
    rounded to binary64 before it is multiplied by 100, and the product
    falls just below 57.5. *)
Lemma fallback_score_tie_rounds_down :
  length (tokens tie_ideal) = 40%nat /\
  overlap (tokens tie_user) (tokens tie_ideal) = 23%nat /\
  spec_score 23 40 = 58 /\
  score (fallbackEvaluation tie_user tie_ideal) = Num (inject_Z 57) /\
  score (fallbackEvaluation tie_user tie_ideal)
  <> Num (inject_Z (spec_score (overlap (tokens tie_user) (tokens tie_ideal))
                               (length (tokens tie_ideal)))).
Proof.
  assert (H1 : length (tokens tie_ideal) = 40%nat) by (vm_compute; reflexivity).
  assert (H2 : overlap (tokens tie_user) (tokens tie_ideal) = 23%nat)
    by (vm_compute; reflexivity).
  assert (H3 : spec_score 23 40 = 58) by (vm_compute; reflexivity).
  assert (H4 : score (fallbackEvaluation tie_user tie_ideal) = Num (inject_Z 57))
    by (vm_compute; reflexivity).
  repeat split; try assumption.
  rewrite H1, H2, H3, H4. discriminate.
Qed.

(** C8, amended.  [fallbackEvaluation] tokenizes both inputs into
    non-empty runs of lowercase word characters.  If the ideal answer
    has no token, the result is "Could not evaluate answer." with score
    0.  Otherwise, for fewer than 2^32 ideal tokens, the score is an
    integer nearest to [100 * m / n], where [n] counts the ideal tokens
    and [m] those of them, duplicates included, that occur among the
    user tokens; it is [round(100 * m / n)] whenever [100 * m / n] is
    not exactly halfway between two integers.  The example of the
    specification scores [round(400 / 9) = 44], in the partial-credit
    tier. *)
Theorem fallbackEvaluation_score (userAnswer idealAnswer : string) :
  let user := tokens userAnswer in
  let ideal := tokens idealAnswer in
  let r := fallbackEvaluation userAnswer idealAnswer in
  Forall lowercase_word user /\ Forall lowercase_word ideal /\
  (ideal = [] ->
   r = {| feedback := "Could not evaluate answer."; score := Num 0 |}) /\
  (ideal <> [] -> Z.of_nat (length ideal) <= 2 ^ 32 ->
   exists k, score r = Num (inject_Z k) /\
     2 * Z.abs (k * Z.of_nat (length ideal) - 100 * Z.of_nat (overlap user ideal))
       <= Z.of_nat (length ideal) /\
     (~ halfway (overlap user ideal) (length ideal) ->
      k = spec_score (overlap user ideal) (length ideal))) /\
  (length (tokens example_ideal) = 9%nat /\
   overlap (tokens example_user) (tokens example_ideal) = 4%nat /\
   spec_score 4 9 = 44 /\
   fallbackEvaluation example_user example_ideal
   = {| feedback :=
          "**Estimated Score: 44%** (Using fallback evaluation)" +:+ nl +:+ nl +:+
          "You're on the right track, but could expand more on key concepts.";
        score := Num 44 |}).
Proof.
  intros user ideal r.
  split; [apply tokens_words|]. split; [apply tokens_words|].
  split; [|split].
  - intros He. subst r. unfold fallbackEvaluation. fold (tokens idealAnswer).
    fold ideal. rewrite He. reflexivity.
  - intros Hne Hlen. subst r. unfold fallbackEvaluation.
    fold (tokens idealAnswer) (tokens userAnswer). fold ideal user.
    assert (Hn : (0 < length ideal)%nat)
      by (destruct ideal; [congruence | cbn; lia]).
    destruct (length ideal =? 0)%nat eqn:Hz; [apply Nat.eqb_eq in Hz; lia|].
    cbn [score]. unfold user, ideal. rewrite fallback_matches. fold user ideal.
    set (m := overlap user ideal).
    assert (Hm : (m <= length ideal)%nat) by apply length_filter.
    unfold of_nat. rewrite percent_eq by lia.
    exists (percent (Z.of_nat m) (Z.of_nat (length ideal))).
    split; [reflexivity|]. split.
    + apply percent_closest; lia.
    + intros Hh. rewrite spec_score_div by exact Hn.
      apply percent_nearest; [lia | lia | exact Hh].
  - vm_compute. repeat split.
Qed.

(** C8 amended, at the example of the specification: 4 of 9 tokens. *)
Lemma fallbackEvaluation_score_witness :
  exists k,
    score (fallbackEvaluation example_user example_ideal) = Num (inject_Z k) /\
    2 * Z.abs (k * 9 - 100 * 4) <= 9 /\ k = 44.
Proof.
  destruct (fallbackEvaluation_score example_user example_ideal)
    as (_ & _ & _ & H & Hex).
  destruct Hex as (Hlen & Hov & Hspec & _).
  destruct H as (k & Hk & Hnear & Hround).
  - rewrite <- length_zero_iff_nil, Hlen. discriminate.
  - rewrite Hlen. vm_compute. discriminate.
  - rewrite Hlen, Hov in *. exists k. split; [exact Hk|]. split; [exact Hnear|].
    rewrite <- Hspec. apply Hround. unfold halfway. vm_compute. discriminate.
Defined.

End FallbackScorer.

(** ** Answer evaluation *)

Section AnswerEvaluation.

(** C6. If userAnswer is missing or empty, or idealAnswer is missing,
    empty or the sentinel "N/A", [evaluateAnswer] returns
    [{feedback: "Could not evaluate answer.", score: 0}] and leaves the
    process as it is: no load is started and the extractor is not
    called. *)
Theorem evaluateAnswer_guard (lib : Transformers) (p : Process)
    (userAnswer idealAnswer : option string) :
  userAnswer = None \/ userAnswer = Some "" \/
  idealAnswer = None \/ idealAnswer = Some "" \/ idealAnswer = Some "N/A" ->
  evaluateAnswer lib p userAnswer idealAnswer
  = ({| feedback := "Could not evaluate answer."; score := Num 0 |}, p).
Proof.
  intros H. unfold evaluateAnswer.
  assert (Hc : cannot_evaluate userAnswer idealAnswer = true).
  { unfold cannot_evaluate.
    destruct H as [->|[->|[->|[->| ->]]]]; cbn;
      rewrite ?orb_true_r; reflexivity. }
  rewrite Hc. reflexivity.
Qed.

(** C6, at the sentinel, with a model that would load. *)
Lemma evaluateAnswer_guard_witness :
  evaluateAnswer lib_up process_start (Some "x") (Some "N/A")
  = ({| feedback := "Could not evaluate answer."; score := Num 0 |}, process_start).
Proof. apply evaluateAnswer_guard. right. right. right. right. reflexivity. Defined.

Lemma passes_guard (u i : string) :
  u <> "" -> i <> "" -> i <> "N/A" -> cannot_evaluate (Some u) (Some i) = false.
Proof.
  intros Hu Hi Hna. unfold cannot_evaluate, falsy.
  destruct u; [congruence|]. destruct i as [|c i]; [congruence|].
  cbn [is_empty orb]. apply String.eqb_neq. exact Hna.
Qed.

(** C7, refuted: the model cannot be loaded, so that [getInstance]
    returns null, and for an empty user answer [evaluateAnswer] returns
    the result of its guard, which is not what [fallbackEvaluation]
    returns for the same pair. *)
Lemma guard_result_differs_from_fallback :
  fst (getInstance lib_down process_start) = None /\
  fst (evaluateAnswer lib_down process_start (Some "") (Some "x"))
  <> fallbackEvaluation "" "x".
Proof. split; [reflexivity|]. vm_compute. discriminate. Qed.

(** C7, amended.  Whenever [getInstance] returns null, [evaluateAnswer]
    returns exactly [fallbackEvaluation(u, i)] for every pair of
    non-empty strings whose second is not "N/A", that is, for every pair
    that passes the guard. *)
Theorem evaluateAnswer_model_unavailable (lib : Transformers) (p : Process)
    (u i : string) :
  u <> "" -> i <> "" -> i <> "N/A" ->
  fst (getInstance lib p) = None ->
  fst (evaluateAnswer lib p (Some u) (Some i)) = fallbackEvaluation u i.
Proof.
  intros Hu Hi Hna Hnull. unfold evaluateAnswer.
  rewrite (passes_guard u i Hu Hi Hna).
  destruct (getInstance lib p) as [[ex|] p1]; [discriminate | reflexivity].
Qed.

(** C7 amended, at the example pair while the model cannot be loaded. *)
Lemma evaluateAnswer_model_unavailable_witness :
  fst (evaluateAnswer lib_down process_start
         (Some example_user) (Some example_ideal))
  = fallbackEvaluation example_user example_ideal.
Proof.
  apply evaluateAnswer_model_unavailable;
    [discriminate | discriminate | discriminate | reflexivity].
Defined.

Lemma similarity_score (q : Q) :
  (-1 <= q)%Q -> (q <= 1)%Q ->
  exists k, score (similarity_result (Num q)) = Num (inject_Z k)
            /\ -100 <= k <= 100 /\ ((0 <= q)%Q -> 0 <= k).
Proof.
  intros H1 H2. exists (Qfloor (fl_mul q (inject_Z 100) + (1 # 2))).
  split; [reflexivity|]. unfold fl_mul. change (inject_Z 100) with 100%Q.
  assert (Hb : (Qabs (q * 100) < 2 ^ 53)%Q)
    by (rewrite pow2_53; apply Qabs_lt_of_bounds; lra).
  pose proof (fl_le_int (q * 100) 100 Hb) as Hhi.
  pose proof (fl_ge_int (q * 100) (-100) Hb) as Hlo.
  change (inject_Z 100) with 100%Q in Hhi.
  change (inject_Z (-100)) with (-100)%Q in Hlo.
  specialize (Hhi ltac:(lra)). specialize (Hlo ltac:(lra)).
  split.
  - apply Qfloor_between.
    + change (inject_Z (-100)) with (-100)%Q. lra.
    + change (inject_Z (100 + 1)) with 101%Q. lra.
  - intros H0. pose proof (fl_ge_int (q * 100) 0 Hb) as Hz.
    change (inject_Z 0) with 0%Q in Hz. specialize (Hz ltac:(lra)).
    rewrite <- (Qfloor_Z 0). apply Qfloor_resp_le.
    change (inject_Z 0) with 0%Q. lra.
Qed.

(** C9, refuted: the model loads, the extractor embeds the two answers
    in opposite directions, [cos_sim] is -1 and the score is -100. *)
Lemma evaluateAnswer_negative_score :
  fst (getInstance lib_up process_start) = Some extractor0 /\
  extractor0 "yes" = Ok unit_x /\ extractor0 "no" = Ok minus_unit_x /\
  score (fst (evaluateAnswer lib_up process_start (Some "yes") (Some "no")))
  = Num (inject_Z (-100)) /\
  ~ integer_between 0 100
      (score (fst (evaluateAnswer lib_up process_start (Some "yes") (Some "no")))).
Proof.
  assert (H : score (fst (evaluateAnswer lib_up process_start
                            (Some "yes") (Some "no")))
              = Num (inject_Z (-100))) by (vm_compute; reflexivity).
  repeat split; try reflexivity; try exact H.
  rewrite H. intros (k & Hk & Hr). injection Hk as Hk. lia.
Qed.

(** C9, amended.  For every input pair, every state of the process and
    every behaviour of the model load and of the extractor: if the
    similarity that the call obtains from [cos_sim] is a number between
    -1 and 1, the score is an integer between -100 and 100; if that
    similarity is not negative, and on the early-return path and the
    fallback path, where no similarity is computed, the score is an
    integer between 0 and 100. *)
Theorem evaluateAnswer_score_range (lib : Transformers) (p : Process)
    (userAnswer idealAnswer : option string) :
  similarity_within (-1) 1 lib p userAnswer idealAnswer ->
  let r := fst (evaluateAnswer lib p userAnswer idealAnswer) in
  integer_between (-100) 100 (score r) /\
  (similarity_within 0 1 lib p userAnswer idealAnswer ->
   integer_between 0 100 (score r)).
Proof.
  intros Hsim r. subst r. unfold evaluateAnswer.
  destruct (cannot_evaluate userAnswer idealAnswer) eqn:Hc.
  { assert (H0 : integer_between 0 100 (score could_not_evaluate))
      by (exists 0; split; [reflexivity | lia]).
    split; [|intros _; exact H0].
    destruct H0 as (k & Hk & Hr). exists k. split; [exact Hk | lia]. }
  assert (Hfb : forall u i,
             integer_between (-100) 100 (score (fallbackEvaluation u i))).
  { intros u i. destruct (fallback_score_range u i) as (k & Hk & Hr).
    exists k. split; [exact Hk | lia]. }
  unfold similarity_within in *. rewrite Hc in *.
  destruct (getInstance lib p) as [[ex|] p1]; cbn [fst] in *.
  2:{ split; [apply Hfb | intros _; apply fallback_score_range]. }
  unfold embedding_path.
  destruct (ex (template userAnswer)) as [ue|e1] eqn:Hu.
  2:{ split; [apply Hfb | intros _; apply fallback_score_range]. }
  destruct (ex (template idealAnswer)) as [ie|e2] eqn:Hi.
  2:{ split; [apply Hfb | intros _; apply fallback_score_range]. }
  cbn [fst].
  destruct (Hsim ex ue ie eq_refl eq_refl Hu Hi) as (q & Hq & Hq1 & Hq2).
  rewrite Hq. destruct (similarity_score q Hq1 Hq2) as (k & Hk & Hr & Hpos).
  split.
  - exists k. split; [exact Hk | exact Hr].
  - intros Hsim0.
    destruct (Hsim0 ex ue ie eq_refl eq_refl Hu Hi) as (q' & Hq' & Hq0 & _).
    assert (q' = q) by congruence. subst q'.
    exists k. split; [exact Hk|]. specialize (Hpos Hq0). lia.
Qed.

(** C9 amended, at the opposite embeddings: the similarity is -1. *)
Lemma evaluateAnswer_score_range_witness :
  integer_between (-100) 100
    (score (fst (evaluateAnswer lib_up process_start (Some "yes") (Some "no")))).
Proof.
  apply (evaluateAnswer_score_range lib_up process_start (Some "yes") (Some "no")).
  intros ex ue ie _ Hex Hu Hi.
  injection Hex as <-. injection Hu as <-. injection Hi as <-.
  eexists. split; [vm_compute; reflexivity|].
  split; unfold Qle; vm_compute; discriminate.
Defined.

End AnswerEvaluation.

(* ================================================================= *)
(** * Further properties *)

(** ** Strings *)

Section Strings.

Lemma app_cons (c : ascii) (s t : string) :
  String c s +:+ t = String c (s +:+ t).
Proof. reflexivity. Qed.

Lemma app_empty (t : string) : EmptyString +:+ t = t.
Proof. reflexivity. Qed.

Lemma chars_app (s t : string) :
  list_ascii_of_string (s +:+ t)
  = list_ascii_of_string s ++ list_ascii_of_string t.
Proof.
  induction s as [|c s IH]; [reflexivity|].
  rewrite app_cons. cbn [list_ascii_of_string]. rewrite IH. reflexivity.
Qed.

Lemma code_eqb (c : ascii) (n : N) :
  (n < 256)%N -> (code c =? n)%N = true <-> c = ascii_of_N n.
Proof.
  intros Hn. unfold code. rewrite N.eqb_eq. split.
  - intros H. rewrite <- H. symmetry. apply ascii_N_embedding.
  - intros ->. apply N_ascii_embedding. exact Hn.
Qed.

Lemma upto_close_spec (s m : string) :
  upto_close s = Some m <->
  exists body post,
    s = body +:+ String close_brace post /\ lacks close_brace body
    /\ m = body +:+ String close_brace EmptyString.
Proof.
  revert m. induction s as [|c s IH]; intros m; cbn [upto_close].
  - split; [discriminate|]. intros (body & post & H & _).
    destruct body; discriminate.
  - destruct (code c =? 125)%N eqn:Hc.
    + apply code_eqb in Hc; [|reflexivity]. subst c. split.
      * intros H. injection H as <-. exists EmptyString, s.
        split; [reflexivity|]. split; [intros []|reflexivity].
      * intros (body & post & H & Hl & ->). destruct body as [|d body].
        { reflexivity. }
        rewrite app_cons in H. injection H as <- _. exfalso. apply Hl. left. reflexivity.
    + assert (Hne : c <> close_brace).
      { intros ->. rewrite (proj2 (code_eqb close_brace 125 eq_refl)) in Hc by reflexivity.
        discriminate. }
      destruct (upto_close s) as [m'|] eqn:Hu; cbn [option_map].
      * destruct (proj1 (IH m') eq_refl) as (body & post & Hs & Hl & Hm).
        split.
        -- intros H. injection H as <-. exists (String c body), post.
           rewrite !app_cons. split; [congruence|]. split; [|congruence].
           intros [H|H]; [congruence | exact (Hl H)].
        -- intros (body' & post' & H & Hl' & ->). destruct body' as [|d body'].
           { rewrite app_empty in H. injection H as H _. congruence. }
           rewrite app_cons in H. injection H as <- H. rewrite app_cons.
           assert (E : Some m' = Some (body' +:+ String close_brace EmptyString)).
           { apply IH. exists body', post'.
             split; [exact H|]. split; [|reflexivity].
             intros Hin. apply Hl'. right. exact Hin. }
           congruence.
      * split; [discriminate|]. intros (body' & post' & H & Hl' & ->).
        destruct body' as [|d body'].
        { rewrite app_empty in H. injection H as H _. congruence. }
        rewrite app_cons in H. injection H as <- H. exfalso.
        assert (Hx : None = Some (body' +:+ String close_brace EmptyString)).
        { apply IH. exists body', post'. split; [exact H|]. split; [|reflexivity].
          intros Hin. apply Hl'. right. exact Hin. }
        discriminate.
Qed.

(** X1. The match of [/{[\s\S]*?}/] in a text is the span from the first
    opening brace to the first closing brace after it, and there is a
    match exactly when such a closing brace exists: [match_object s] is
    [m] if and only if [s] is [pre { body } post] with no opening brace
    in [pre] and no closing brace in [body], and [m] is [{ body }].  An
    object that holds a nested object is therefore cut at the closing
    brace of the nested one. *)
Theorem match_object_spec (s m : string) :
  match_object s = Some m <->
  exists pre body post,
    s = pre +:+ String open_brace (body +:+ String close_brace post)
    /\ lacks open_brace pre /\ lacks close_brace body
    /\ m = String open_brace (body +:+ String close_brace EmptyString).
Proof.
  revert m. induction s as [|c s IH]; intros m; cbn [match_object].
  - split; [discriminate|]. intros (pre & body & post & H & _).
    destruct pre; discriminate.
  - destruct (code c =? 123)%N eqn:Hc.
    + apply code_eqb in Hc; [|reflexivity]. subst c. split.
      * intros H. destruct (upto_close s) as [m'|] eqn:Hu; [|discriminate].
        cbn in H. injection H as <-.
        destruct (proj1 (upto_close_spec s m') Hu) as (body & post & Hs & Hl & Hm).
        exists EmptyString, body, post. rewrite app_empty.
        split; [apply (f_equal (String open_brace)); exact Hs|].
        split; [intros []|].
        split; [exact Hl | apply (f_equal (String open_brace)); exact Hm].
      * intros (pre & body & post & H & Hp & Hb & ->). destruct pre as [|d pre].
        2:{ rewrite app_cons in H. injection H as <- _. exfalso. apply Hp. left. reflexivity. }
        rewrite app_empty in H. injection H as H.
        rewrite (proj2 (upto_close_spec s (body +:+ String close_brace EmptyString)));
          [reflexivity|].
        exists body, post. split; [exact H|]. split; [exact Hb | reflexivity].
    + assert (Hne : c <> open_brace).
      { intros ->. rewrite (proj2 (code_eqb open_brace 123 eq_refl)) in Hc by reflexivity.
        discriminate. }
      rewrite IH. split.
      * intros (pre & body & post & H & Hp & Hb & Hm).
        exists (String c pre), body, post. rewrite app_cons.
        split; [congruence|]. split; [|split; assumption].
        intros [Hx|Hx]; [congruence | exact (Hp Hx)].
      * intros (pre & body & post & H & Hp & Hb & Hm). destruct pre as [|d pre].
        { rewrite app_empty in H. injection H as H _. congruence. }
        rewrite app_cons in H. injection H as <- H.
        exists pre, body, post. split; [exact H|]. split; [|split; assumption].
        intros Hx. apply Hp. right. exact Hx.
Qed.

(** X1, at a text whose object holds a nested object. *)
Lemma match_object_spec_witness :
  match_object ("Here: {" +:+ dquote +:+ "a" +:+ dquote +:+ ": {1}, 2} end")
  = Some ("{" +:+ dquote +:+ "a" +:+ dquote +:+ ": {1}").
Proof.
  apply match_object_spec.
  exists "Here: ", (dquote +:+ "a" +:+ dquote +:+ ": {1"), ", 2} end".
  split; [reflexivity|]. split; [|split; [|reflexivity]].
  - intros H. cbn in H. repeat (destruct H as [H|H]; [discriminate|]). exact H.
  - intros H. cbn in H. repeat (destruct H as [H|H]; [discriminate|]). exact H.
Defined.

Lemma is_empty_true (s : string) : is_empty s = true -> s = EmptyString.
Proof. destruct s; [reflexivity | discriminate]. Qed.

Lemma trimStart_split (s : string) :
  exists pre, s = pre +:+ trimStart s /\ all_space pre /\
    (forall c, head (list_ascii_of_string (trimStart s)) = Some c ->
               is_space c = false).
Proof.
  induction s as [|c s IH]; cbn [trimStart].
  - exists EmptyString. split; [reflexivity|]. split; [constructor | discriminate].
  - destruct (is_space c) eqn:Hc.
    + destruct IH as (pre & Hs & Hp & Hh). exists (String c pre).
      rewrite app_cons. split; [congruence|]. split; [constructor; assumption | exact Hh].
    + exists EmptyString. split; [reflexivity|]. split; [constructor|].
      intros d H. injection H as <-. exact Hc.
Qed.

Lemma trimEnd_split (s : string) :
  exists post, s = trimEnd s +:+ post /\ all_space post /\
    (forall c, last (list_ascii_of_string (trimEnd s)) = Some c ->
               is_space c = false).
Proof.
  induction s as [|c s IH]; cbn [trimEnd].
  - exists EmptyString. split; [reflexivity|]. split; [constructor | discriminate].
  - destruct IH as (post & Hs & Hp & Hl).
    destruct (is_space c && is_empty (trimEnd s)) eqn:Hc.
    + apply andb_true_iff in Hc. destruct Hc as [Hc He].
      apply is_empty_true in He. rewrite He in Hs. rewrite app_empty in Hs.
      exists (String c post). rewrite app_empty.
      split; [congruence|]. split; [constructor; assumption | discriminate].
    + exists post. rewrite app_cons. split; [congruence|]. split; [exact Hp|].
      intros d Hd. cbn [list_ascii_of_string] in Hd.
      destruct (trimEnd s) as [|e t] eqn:Ht.
      * cbn in Hd. injection Hd as <-. cbn in Hc. rewrite andb_true_r in Hc. exact Hc.
      * apply Hl. cbn [list_ascii_of_string] in *. rewrite last_cons_cons in Hd. exact Hd.
Qed.

(** [trimEnd] keeps a first character that is not white space. *)
Lemma trimEnd_head (s : string) :
  (forall c, head (list_ascii_of_string s) = Some c -> is_space c = false) ->
  forall c, head (list_ascii_of_string (trimEnd s)) = Some c -> is_space c = false.
Proof.
  intros H c. destruct s as [|d s]; cbn [trimEnd]; [discriminate|].
  destruct (is_space d && is_empty (trimEnd s)); [discriminate|].
  cbn. intros Hc. apply H. exact Hc.
Qed.

Lemma trimStart_clean (s : string) :
  (forall c, head (list_ascii_of_string s) = Some c -> is_space c = false) ->
  trimStart s = s.
Proof.
  intros H. destruct s as [|c s]; [reflexivity|]. cbn [trimStart].
  rewrite (H c eq_refl). reflexivity.
Qed.

Lemma trimEnd_clean (s : string) :
  (forall c, last (list_ascii_of_string s) = Some c -> is_space c = false) ->
  trimEnd s = s.
Proof.
  induction s as [|c s IH]; intros H; [reflexivity|]. cbn [trimEnd].
  destruct s as [|d s].
  - cbn. rewrite (H c eq_refl). reflexivity.
  - rewrite IH.
    + cbn [is_empty]. rewrite andb_false_r. reflexivity.
    + intros e He. apply H. cbn [list_ascii_of_string] in *.
      rewrite last_cons_cons. exact He.
Qed.

(** [trim] removes white space at both ends, and nothing else. *)
Lemma trim_spec (s : string) :
  (exists pre post,
     s = pre +:+ trim s +:+ post /\ all_space pre /\ all_space post) /\
  clean_edges (trim s) /\
  trim (trim s) = trim s.
Proof.
  unfold trim.
  destruct (trimStart_split s) as (pre & Hs & Hpre & Hhead).
  destruct (trimEnd_split (trimStart s)) as (post & Hs' & Hpost & Hlast).
  assert (Hclean : clean_edges (trimEnd (trimStart s))).
  { split; [apply trimEnd_head; exact Hhead | exact Hlast]. }
  split; [|split; [exact Hclean|]].
  - exists pre, post. split; [|split; assumption]. congruence.
  - destruct Hclean as [Hh Hl].
    rewrite (trimStart_clean _ Hh). apply trimEnd_clean. exact Hl.
Qed.






(** X2. When the response text holds no JSON object, the question that
    is returned is never empty and neither starts nor ends with white
    space; and if the text is not all white space, the question is the
    text with the white space at both ends removed, and nothing else
    removed. *)
Theorem raw_text_question (w : World) (topic subTopic s : string) :
  match_object s = None ->
  exists q,
    parse_text w topic subTopic (JStr s)
    = Ok {| question := JStr q; ideal_answer := JStr generic_ideal_answer |} /\
    q <> "" /\ clean_edges q /\
    (trim s <> "" ->
     q = trim s /\
     exists pre post, s = pre +:+ q +:+ post /\ all_space pre /\ all_space post).
Proof.
  intros Hm. unfold parse_text. rewrite Hm. unfold or_else.
  destruct (trim_spec s) as ((pre & post & Hs & Hpre & Hpost) & Hclean & _).
  destruct (trim s) as [|c t] eqn:Ht.
  - eexists. split; [reflexivity|]. split; [discriminate|]. split; [|congruence].
    split.
    + intros d H. cbv in H. injection H as <-. reflexivity.
    + intros d H. rewrite !chars_app in H.
      change (list_ascii_of_string "?") with ["?"%char] in H.
      rewrite !app_assoc, last_snoc in H. injection H as <-. reflexivity.
  - exists (String c t). split; [reflexivity|]. split; [discriminate|].
    split; [exact Hclean|]. intros _. split; [reflexivity|].
    exists pre, post. split; [exact Hs|]. split; assumption.
Qed.

(** X2, at the raw text of the specification between white space. *)
Lemma raw_text_question_witness :
  exists q,
    parse_text world_raw_text "Data Structures" "Hash Tables"
      (JStr ("  " +:+ raw_text +:+ nl))
    = Ok {| question := JStr q; ideal_answer := JStr generic_ideal_answer |} /\
    q <> "" /\ clean_edges q.
Proof.
  destruct (raw_text_question world_raw_text "Data Structures" "Hash Tables"
              ("  " +:+ raw_text +:+ nl)) as (q & H1 & H2 & H3 & _);
    [reflexivity|].
  exists q. split; [exact H1|]. split; assumption.
Defined.

End Strings.

(** ** Order of the binary64 roundings *)

Section RoundingOrder.

Lemma rne_tie_even (p q : Z) :
  0 < q -> 2 * Z.abs (rne p q * q - p) = q -> Z.even (rne p q) = true.
Proof.
  intros Hq. unfold rne.
  pose proof (Z.div_mod p q ltac:(lia)) as Hdm.
  pose proof (Z.mod_pos_bound p q Hq) as Hm.
  destruct (2 * (p mod q) <? q) eqn:H1; [intros; nia|].
  destruct (q <? 2 * (p mod q)) eqn:H2; [intros; nia|].
  destruct (Z.even (p / q)) eqn:He; [intros; exact He|].
  intros _. replace (p / q + 1) with (Z.succ (p / q)) by lia.
  rewrite Z.even_succ, <- Z.negb_even, He. reflexivity.
Qed.

Lemma rne_mono (p1 q1 p2 q2 : Z) :
  0 < q1 -> 0 < q2 -> p1 * q2 <= p2 * q1 -> rne p1 q1 <= rne p2 q2.
Proof.
  intros Hq1 Hq2 Hle.
  pose proof (rne_near p1 q1 Hq1) as N1. pose proof (rne_near p2 q2 Hq2) as N2.
  destruct (Z_le_gt_dec (rne p1 q1) (rne p2 q2)) as [H|H]; [exact H|exfalso].
  set (r1 := rne p1 q1) in *. set (r2 := rne p2 q2) in *.
  assert (A : (2 * r1 - 1) * q1 <= 2 * p1) by lia.
  assert (B : 2 * p2 <= (2 * r2 + 1) * q2) by lia.
  assert (A' : (2 * r1 - 1) * q1 * q2 <= 2 * p1 * q2)
    by (apply Z.mul_le_mono_nonneg_r; lia).
  assert (B' : 2 * p2 * q1 <= (2 * r2 + 1) * q2 * q1)
    by (apply Z.mul_le_mono_nonneg_r; lia).
  assert (Hqq : 0 < q1 * q2) by lia.
  assert (C : (2 * r1 - 1) * (q1 * q2) <= (2 * r2 + 1) * (q1 * q2)) by lia.
  assert (Hr : r1 = r2 + 1).
  { apply Z.mul_le_mono_pos_r in C; [lia | exact Hqq]. }
  assert (A2 : (2 * r1 - 1) * q1 * q2 = 2 * p1 * q2) by (subst r1; lia).
  assert (B2 : 2 * p2 * q1 = (2 * r2 + 1) * q2 * q1) by (rewrite Hr in *; lia).
  apply Z.mul_cancel_r in A2; [|lia]. apply Z.mul_cancel_r in B2; [|lia].
  assert (T1 : 2 * Z.abs (r1 * q1 - p1) = q1) by lia.
  assert (T2 : 2 * Z.abs (r2 * q2 - p2) = q2) by lia.
  pose proof (rne_tie_even p1 q1 Hq1 T1) as E1.
  pose proof (rne_tie_even p2 q2 Hq2 T2) as E2.
  fold r1 in E1. fold r2 in E2. rewrite Hr in E1.
  replace (r2 + 1) with (Z.succ r2) in E1 by lia.
  rewrite Z.even_succ, <- Z.negb_even, E2 in E1. discriminate.
Qed.

Lemma rneQ_mono (x y : Q) : (x <= y)%Q -> rneQ x <= rneQ y.
Proof.
  destruct x as [p1 q1], y as [p2 q2]. unfold Qle, rneQ. cbn [Qnum Qden].
  intros H. apply rne_mono; lia.
Qed.

Lemma ilog2_mono (x y : Q) : (0 < x)%Q -> (x <= y)%Q -> ilog2 x <= ilog2 y.
Proof.
  intros Hx Hxy.
  destruct (ilog2_spec x Hx) as [Hx1 _].
  destruct (ilog2_spec y ltac:(lra)) as [_ Hy2].
  assert (ilog2 x < ilog2 y + 1) by (apply pow2_lt_inv; lra). lia.
Qed.

Lemma pow2_sub (a b : Z) : (2 ^ a == 2 ^ (a - b) * 2 ^ b)%Q.
Proof. rewrite <- pow2_add. replace (a - b + b) with a by lia. reflexivity. Qed.

(** A power of two that is a multiple of the unit in the last place of
    [x] bounds [fl x] as it bounds [x]. *)
Lemma fl_le_pow2 (x : Q) (j : Z) :
  (0 < x)%Q -> ulp_exp x <= j -> (x <= 2 ^ j)%Q -> (fl x <= 2 ^ j)%Q.
Proof.
  intros Hx Hj Hle. unfold fl. rewrite (Qeq_bool_false_pos x Hx).
  set (e := ulp_exp x) in *. pose proof (pow2_pos e) as HE.
  pose proof (pow2_sub j e) as Hs. rewrite (pow2_Z (j - e)) in Hs by lia.
  assert (Hy : (x / 2 ^ e <= inject_Z (2 ^ (j - e)))%Q).
  { apply Qle_shift_div_r; [exact HE|]. rewrite <- Hs. exact Hle. }
  apply rneQ_le_int in Hy.
  apply (Qmult_le_compat_r _ _ (2 ^ e)) in Hy; [|lra].
  rewrite <- Hs in Hy. exact Hy.
Qed.

Lemma fl_ge_pow2 (x : Q) (j : Z) :
  (0 < x)%Q -> ulp_exp x <= j -> (2 ^ j <= x)%Q -> (2 ^ j <= fl x)%Q.
Proof.
  intros Hx Hj Hle. unfold fl. rewrite (Qeq_bool_false_pos x Hx).
  set (e := ulp_exp x) in *. pose proof (pow2_pos e) as HE.
  pose proof (pow2_sub j e) as Hs. rewrite (pow2_Z (j - e)) in Hs by lia.
  assert (Hy : (inject_Z (2 ^ (j - e)) <= x / 2 ^ e)%Q).
  { apply Qle_shift_div_l; [exact HE|]. rewrite <- Hs. exact Hle. }
  apply rneQ_ge_int in Hy.
  apply (Qmult_le_compat_r _ _ (2 ^ e)) in Hy; [|lra].
  rewrite <- Hs in Hy. exact Hy.
Qed.

(** Rounding to binary64 is monotone on the non-negative numbers. *)
Lemma fl_mono (x y : Q) : (0 <= x)%Q -> (x <= y)%Q -> (fl x <= fl y)%Q.
Proof.
  intros Hx Hxy.
  destruct (Qeq_bool x 0) eqn:Hz.
  { unfold fl at 1. rewrite Hz. apply fl_nonneg. lra. }
  assert (Hx0 : (0 < x)%Q).
  { apply Qnot_le_lt. intros Hc. assert (Hq : (x == 0)%Q) by lra.
    apply Qeq_bool_iff in Hq. congruence. }
  assert (Hy0 : (0 < y)%Q) by lra.
  pose proof (ilog2_mono x y Hx0 Hxy) as HL.
  destruct (Z.eq_dec (ulp_exp x) (ulp_exp y)) as [He|He].
  - unfold fl. rewrite (Qeq_bool_false_pos x Hx0), (Qeq_bool_false_pos y Hy0), He.
    set (e := ulp_exp y). pose proof (pow2_pos e) as HE.
    apply Qmult_le_compat_r; [|lra]. rewrite <- Zle_Qle. apply rneQ_mono.
    apply Qmult_le_compat_r; [exact Hxy|].
    apply Qlt_le_weak, Qinv_lt_0_compat, HE.
  - assert (Hux : ulp_exp x = Z.max (ilog2 x - 52) (-1074))
      by (unfold ulp_exp; rewrite (Qabs_pos_eq x Hx0); reflexivity).
    assert (Huy : ulp_exp y = Z.max (ilog2 y - 52) (-1074))
      by (unfold ulp_exp; rewrite (Qabs_pos_eq y Hy0); reflexivity).
    destruct (ilog2_spec x Hx0) as [_ Hx2].
    destruct (ilog2_spec y Hy0) as [Hy1 _].
    assert (Hlt : ilog2 x + 1 <= ilog2 y) by lia.
    assert (Hp : (2 ^ (ilog2 x + 1) <= 2 ^ ilog2 y)%Q)
      by (apply Qpower_le_compat_l; [exact Hlt | discriminate]).
    apply (Qle_trans _ (2 ^ ilog2 y)).
    + apply fl_le_pow2; [exact Hx0 | lia | lra].
    + apply fl_ge_pow2; [exact Hy0 | lia | exact Hy1].
Qed.

Lemma fl_nonpos (x : Q) : (x <= 0)%Q -> (fl x <= 0)%Q.
Proof.
  intros Hx. unfold fl. destruct (Qeq_bool x 0); [apply Qle_refl|].
  set (e := ulp_exp x). pose proof (pow2_pos e) as HE.
  assert (Hy : (x / 2 ^ e <= inject_Z 0)%Q).
  { change (inject_Z 0) with 0%Q. apply Qle_shift_div_r; [exact HE|]. lra. }
  apply rneQ_le_int in Hy. change (inject_Z 0) with 0%Q in Hy.
  assert (H : (inject_Z (rneQ (x / 2 ^ e)) * 2 ^ e <= 0 * 2 ^ e)%Q)
    by (apply Qmult_le_compat_r; lra).
  lra.
Qed.

(** [Math.round((m / n) * 100)] does not decrease with [m]. *)
Lemma percent_mono (m m' n : Z) :
  0 <= m <= m' -> 0 < n -> percent m n <= percent m' n.
Proof.
  intros Hm Hn. unfold percent, fl_mul, fl_div.
  assert (Hn' : (0 < inject_Z n)%Q) by (rewrite <- (Zlt_Qlt 0); exact Hn).
  assert (Hm0 : (0 <= inject_Z m)%Q) by (rewrite <- (Zle_Qle 0); lia).
  assert (Hmm : (inject_Z m <= inject_Z m')%Q) by (rewrite <- Zle_Qle; lia).
  assert (Hx0 : (0 <= inject_Z m / inject_Z n)%Q)
    by (apply Qle_shift_div_l; [exact Hn'|]; lra).
  assert (Hxy : (inject_Z m / inject_Z n <= inject_Z m' / inject_Z n)%Q).
  { apply Qmult_le_compat_r; [exact Hmm|].
    apply Qlt_le_weak, Qinv_lt_0_compat, Hn'. }
  pose proof (fl_mono _ _ Hx0 Hxy) as H1.
  pose proof (fl_nonneg _ Hx0) as H0.
  set (a := fl (inject_Z m / inject_Z n)) in *.
  set (b := fl (inject_Z m' / inject_Z n)) in *.
  assert (H2 : (fl (a * 100) <= fl (b * 100))%Q) by (apply fl_mono; lra).
  apply Qfloor_resp_le. lra.
Qed.

Lemma percent_full (n : Z) : 0 < n -> percent n n = 100.
Proof.
  intros Hn. unfold percent, fl_mul, fl_div.
  assert (Hn' : (0 < inject_Z n)%Q) by (rewrite <- (Zlt_Qlt 0); exact Hn).
  assert (Hx : (inject_Z n / inject_Z n == 1)%Q) by (field; lra).
  assert (Hb : (Qabs (inject_Z n / inject_Z n) < 2 ^ 53)%Q)
    by (rewrite pow2_53; apply Qabs_lt_of_bounds; lra).
  pose proof (fl_le_int _ 1 Hb ltac:(change (inject_Z 1) with 1%Q; lra)) as H1.
  pose proof (fl_ge_int _ 1 Hb ltac:(change (inject_Z 1) with 1%Q; lra)) as H2.
  change (inject_Z 1) with 1%Q in H1, H2.
  set (a := fl (inject_Z n / inject_Z n)) in *.
  assert (Hb' : (Qabs (a * 100) < 2 ^ 53)%Q)
    by (rewrite pow2_53; apply Qabs_lt_of_bounds; lra).
  pose proof (fl_le_int _ 100 Hb' ltac:(change (inject_Z 100) with 100%Q; lra)) as H3.
  pose proof (fl_ge_int _ 100 Hb' ltac:(change (inject_Z 100) with 100%Q; lra)) as H4.
  change (inject_Z 100) with 100%Q in H3, H4.
  assert (100 <= Qfloor (fl (a * 100) + (1 # 2)) <= 100); [|lia].
  apply Qfloor_between.
  - change (inject_Z 100) with 100%Q. lra.
  - change (inject_Z (100 + 1)) with 101%Q. lra.
Qed.

End RoundingOrder.

(** ** The keyword scorer *)

Section KeywordScoring.

Lemma fallbackEvaluation_percent (u i : string) :
  tokens i <> [] ->
  fallbackEvaluation u i
  = fallback_result (percent (Z.of_nat (overlap (tokens u) (tokens i)))
                             (Z.of_nat (length (tokens i)))).
Proof.
  intros Hne. unfold fallbackEvaluation. fold (tokens i) (tokens u).
  assert (Hn : (0 < length (tokens i))%nat)
    by (destruct (tokens i); [congruence | cbn; lia]).
  destruct (length (tokens i) =? 0)%nat eqn:Hz; [apply Nat.eqb_eq in Hz; lia|].
  rewrite fallback_matches. unfold of_nat. rewrite percent_eq by lia.
  reflexivity.
Qed.

Lemma fallbackEvaluation_no_tokens (u i : string) :
  tokens i = [] -> fallbackEvaluation u i = could_not_evaluate.
Proof.
  intros He. unfold fallbackEvaluation. fold (tokens i). rewrite He. reflexivity.
Qed.

Lemma overlap_le (user ideal : list string) :
  (overlap user ideal <= length ideal)%nat.
Proof. apply length_filter. Qed.

Lemma overlap_mono (user user' ideal : list string) :
  (forall w, w ∈ user -> w ∈ user') ->
  (overlap user ideal <= overlap user' ideal)%nat.
Proof.
  intros H. unfold overlap. induction ideal as [|w ideal IH]; [reflexivity|].
  rewrite !filter_cons.
  destruct (decide (w ∈ user)) as [Hw|Hw].
  - destruct (decide (w ∈ user')) as [_|Hn]; [cbn; lia | exfalso; auto].
  - destruct (decide (w ∈ user')); cbn; lia.
Qed.

Lemma overlap_all (user ideal : list string) :
  (forall w, w ∈ ideal -> w ∈ user) -> overlap user ideal = length ideal.
Proof.
  intros H. unfold overlap. induction ideal as [|w ideal IH]; [reflexivity|].
  rewrite filter_cons. destruct (decide (w ∈ user)) as [_|Hn].
  - cbn. f_equal. apply IH. intros x Hx. apply H. right. exact Hx.
  - exfalso. apply Hn, H. left.
Qed.

Lemma overlap_none (user ideal : list string) :
  (forall w, w ∈ ideal -> w ∉ user) -> overlap user ideal = 0%nat.
Proof.
  intros H. unfold overlap. induction ideal as [|w ideal IH]; [reflexivity|].
  rewrite filter_cons. destruct (decide (w ∈ user)) as [Hw|_].
  - exfalso. apply (H w); [left | exact Hw].
  - apply IH. intros x Hx. apply H. right. exact Hx.
Qed.

Lemma toLowerCase_idem (s : string) : toLowerCase (toLowerCase s) = toLowerCase s.
Proof.
  induction s as [|c s IH]; [reflexivity|]. cbn [toLowerCase].
  rewrite lower_char_idem, IH. reflexivity.
Qed.

(** X4. The fallback scorer looks at the user answer only through the
    set of its tokens: two user answers with the same tokens, in any
    order and with any repetitions, get the same result. *)
Theorem fallback_user_token_set (u u' i : string) :
  (forall w, w ∈ tokens u <-> w ∈ tokens u') ->
  fallbackEvaluation u i = fallbackEvaluation u' i.
Proof.
  intros H. unfold fallbackEvaluation. fold (tokens u) (tokens u') (tokens i).
  assert (E : (list_to_set (tokens u) : gset string) = list_to_set (tokens u')).
  { apply set_eq. intros w. rewrite !elem_of_list_to_set. apply H. }
  rewrite E. reflexivity.
Qed.

(** X4, at a user answer that repeats and reorders its words. *)
Lemma fallback_user_token_set_witness :
  fallbackEvaluation "loss, loss and GRADIENT" "gradient descent minimizes loss"
  = fallbackEvaluation "gradient and loss" "gradient descent minimizes loss".
Proof.
  apply fallback_user_token_set. intros w.
  change (tokens "loss, loss and GRADIENT") with ["loss"; "loss"; "and"; "gradient"].
  change (tokens "gradient and loss") with ["gradient"; "and"; "loss"].
  rewrite !elem_of_cons, !elem_of_nil. tauto.
Defined.

(** X5. The fallback scorer ignores the case of letters: lower-casing
    both answers beforehand does not change the result. *)
Theorem fallback_case_insensitive (u i : string) :
  fallbackEvaluation (toLowerCase u) (toLowerCase i) = fallbackEvaluation u i.
Proof.
  unfold fallbackEvaluation. rewrite !toLowerCase_idem. reflexivity.
Qed.

(** X6. The fallback score never decreases when the user answer gains
    tokens: if every token of one user answer is a token of another,
    the score of the first is at most the score of the second. *)
Theorem fallback_score_monotone (u u' i : string) :
  (forall w, w ∈ tokens u -> w ∈ tokens u') ->
  exists k k',
    score (fallbackEvaluation u i) = Num (inject_Z k) /\
    score (fallbackEvaluation u' i) = Num (inject_Z k') /\
    k <= k'.
Proof.
  intros H. destruct (tokens i) as [|w ws] eqn:Hi.
  - rewrite !fallbackEvaluation_no_tokens by exact Hi.
    exists 0, 0. repeat split. lia.
  - rewrite !fallbackEvaluation_percent by congruence. rewrite Hi.
    eexists _, _. split; [reflexivity|]. split; [reflexivity|].
    apply percent_mono; [|cbn [length]; lia].
    pose proof (overlap_mono _ _ (w :: ws) H). lia.
Qed.

(** X6, at a user answer that gains one word. *)
Lemma fallback_score_monotone_witness :
  exists k k',
    score (fallbackEvaluation "gradient" "gradient descent minimizes loss")
    = Num (inject_Z k) /\
    score (fallbackEvaluation "gradient descent" "gradient descent minimizes loss")
    = Num (inject_Z k') /\
    k <= k'.
Proof.
  apply fallback_score_monotone. intros w.
  change (tokens "gradient") with ["gradient"].
  change (tokens "gradient descent") with ["gradient"; "descent"].
  rewrite !elem_of_cons, !elem_of_nil. tauto.
Defined.

(** X7. For an ideal answer that has a token: a user answer that holds
    every ideal token scores 100, with the feedback of the highest
    tier; a user answer that holds none scores 0, with the feedback of
    the lowest. *)
Theorem fallback_score_extremes (u i : string) :
  tokens i <> [] ->
  ((forall w, w ∈ tokens i -> w ∈ tokens u) ->
   fallbackEvaluation u i
   = {| feedback :=
          "**Estimated Score: 100%** (Using fallback evaluation)" +:+ nl +:+ nl +:+
          "Good! Your answer covers many key concepts.";
        score := Num 100 |}) /\
  ((forall w, w ∈ tokens i -> w ∉ tokens u) ->
   fallbackEvaluation u i
   = {| feedback :=
          "**Estimated Score: 0%** (Using fallback evaluation)" +:+ nl +:+ nl +:+
          "Your answer needs more detail. Review the ideal answer for key points.";
        score := Num 0 |}).
Proof.
  intros Hne.
  assert (Hn : 0 < Z.of_nat (length (tokens i)))
    by (destruct (tokens i); [congruence | cbn [length]; lia]).
  split; intros H; rewrite fallbackEvaluation_percent by exact Hne.
  - rewrite (overlap_all _ _ H), percent_full by exact Hn. reflexivity.
  - rewrite (overlap_none _ _ H). change (Z.of_nat 0) with 0.
    rewrite percent_zero by exact Hn. reflexivity.
Qed.

(** X7, at a user answer that holds the four ideal tokens. *)
Lemma fallback_score_extremes_witness :
  fallbackEvaluation "It minimizes loss by gradient descent!"
                     "gradient descent minimizes loss"
  = {| feedback :=
         "**Estimated Score: 100%** (Using fallback evaluation)" +:+ nl +:+ nl +:+
         "Good! Your answer covers many key concepts.";
       score := Num 100 |}.
Proof.
  apply fallback_score_extremes; [discriminate|]. intros w.
  change (tokens "gradient descent minimizes loss")
    with ["gradient"; "descent"; "minimizes"; "loss"].
  change (tokens "It minimizes loss by gradient descent!")
    with ["it"; "minimizes"; "loss"; "by"; "gradient"; "descent"].
  rewrite !elem_of_cons, !elem_of_nil. tauto.
Defined.

End KeywordScoring.

(** ** Feedback tiers *)

Section Feedback.

Lemma round_ge (x : Q) (c : Z) : (inject_Z c <= x)%Q -> c <= Qfloor (x + (1 # 2)).
Proof.
  intros H. rewrite <- (Qfloor_Z c). apply Qfloor_resp_le. lra.
Qed.

Lemma round_le (x : Q) (c : Z) : (x <= inject_Z c)%Q -> Qfloor (x + (1 # 2)) <= c.
Proof.
  intros H. pose proof (Qfloor_le (x + (1 # 2))) as Hf.
  assert (Hlt : (inject_Z (Qfloor (x + (1 # 2))) < inject_Z (c + 1))%Q).
  { rewrite inject_Z_plus. change (inject_Z 1) with 1%Q. lra. }
  rewrite <- Zlt_Qlt in Hlt. lia.
Qed.

(** The thresholds of the source, multiplied by 100 in binary64. *)
Lemma thresholds_percent :
  (fl (fl (8 # 10) * 100) == 80)%Q /\ (fl (fl (6 # 10) * 100) == 60)%Q /\
  (40 <= fl (fl (4 # 10) * 100))%Q /\ (fl (fl (4 # 10) * 100) <= 40 + (1 # 4))%Q /\
  (0 < fl (4 # 10))%Q /\ (0 < fl (6 # 10))%Q /\ (0 < fl (8 # 10))%Q.
Proof. vm_compute. repeat split; discriminate. Qed.

Lemma Qle_bool_false (x y : Q) : Qle_bool x y = false -> (y < x)%Q.
Proof.
  intros H. apply Qnot_le_lt. intros Hc. apply Qle_bool_iff in Hc. congruence.
Qed.

(** X8. On the embedding path the tier of the feedback is chosen from
    the similarity and the percentage shown from its rounding, and the
    two agree up to the ends of the bands: for every similarity, the
    feedback starts with the score [k] that is returned, and it is the
    "Excellent" text only if [k >= 80], the "Good job" text only if
    [60 <= k <= 80], the "right track" text only if [40 <= k <= 60],
    and the "missing the main points" text only if [k <= 40]. *)
Theorem similarity_tier_bands (q : Q) :
  let r := similarity_result (Num q) in
  exists k,
    score r = Num (inject_Z k) /\
    ((80 <= k /\
      feedback r = similarity_head k +:+
        "Excellent! Your answer is very comprehensive and closely matches the key points.")
     \/ (60 <= k <= 80 /\
      feedback r = similarity_head k +:+
        "Good job! You have the right idea, but you might be missing a few key details.")
     \/ (40 <= k <= 60 /\
      feedback r = similarity_head k +:+
        "You're on the right track, but your answer is quite different. Try to be more specific.")
     \/ (k <= 40 /\
      feedback r = similarity_head k +:+
        "Your answer seems to be missing the main points. Let's review the ideal answer.")).
Proof.
  intros r. subst r.
  destruct thresholds_percent as (T8 & T6 & T4 & T4' & P4 & P6 & P8).
  exists (Qfloor (fl (q * 100) + (1 # 2))). split; [reflexivity|].
  unfold similarity_result, gt, lit. cbn [feedback].
  change (Math_round (mul (Num q) (of_Z 100)))
    with (Num (inject_Z (Qfloor (fl (q * 100) + (1 # 2))))).
  fold (similarity_head (Qfloor (fl (q * 100) + (1 # 2)))).
  set (t8 := fl (8 # 10)) in *. set (t6 := fl (6 # 10)) in *.
  set (t4 := fl (4 # 10)) in *.
  assert (Up : forall t, (0 <= q)%Q -> (q <= t)%Q -> (fl (q * 100) <= fl (t * 100))%Q)
    by (intros t H0 Ht; apply fl_mono; lra).
  assert (Lo : forall t, (0 <= t)%Q -> (t <= q)%Q -> (fl (t * 100) <= fl (q * 100))%Q)
    by (intros t H0 Ht; apply fl_mono; lra).
  destruct (Qle_bool q t8) eqn:H8; cbn [negb].
  2:{ left. apply Qle_bool_false in H8. split; [|reflexivity].
      apply round_ge. change (inject_Z 80) with 80%Q.
      specialize (Lo t8 ltac:(lra) ltac:(lra)). lra. }
  apply Qle_bool_iff in H8. right.
  destruct (Qle_bool q t6) eqn:H6; cbn [negb].
  2:{ left. apply Qle_bool_false in H6. split; [|reflexivity]. split.
      - apply round_ge. change (inject_Z 60) with 60%Q.
        specialize (Lo t6 ltac:(lra) ltac:(lra)). lra.
      - apply round_le. change (inject_Z 80) with 80%Q.
        specialize (Up t8 ltac:(lra) H8). lra. }
  apply Qle_bool_iff in H6. right.
  destruct (Qle_bool q t4) eqn:H4; cbn [negb].
  2:{ left. apply Qle_bool_false in H4. split; [|reflexivity]. split.
      - apply round_ge. change (inject_Z 40) with 40%Q.
        specialize (Lo t4 ltac:(lra) ltac:(lra)). lra.
      - apply round_le. change (inject_Z 60) with 60%Q.
        specialize (Up t6 ltac:(lra) H6). lra. }
  apply Qle_bool_iff in H4. right. split; [|reflexivity].
  destruct (Qlt_le_dec q 0) as [Hneg|Hpos].
  - apply round_le. change (inject_Z 40) with 40%Q.
    pose proof (fl_nonpos (q * 100) ltac:(lra)). lra.
  - specialize (Up t4 Hpos H4).
    assert (Qfloor (fl (q * 100) + (1 # 2)) < 41); [|lia].
    pose proof (Qfloor_le (fl (q * 100) + (1 # 2))) as Hf.
    rewrite Zlt_Qlt. change (inject_Z 41) with 41%Q. lra.
Qed.

Lemma gt_int (k c : Z) : gt (Num (inject_Z k)) (of_Z c) = (c <? k).
Proof.
  unfold gt, of_Z. destruct (Qle_bool (inject_Z k) (inject_Z c)) eqn:H.
  - apply Qle_bool_iff in H. rewrite <- Zle_Qle in H. symmetry. apply Z.ltb_ge. exact H.
  - apply Qle_bool_false in H. rewrite <- Zlt_Qlt in H. symmetry. apply Z.ltb_lt. exact H.
Qed.

(** X9. When the ideal answer has a token, the fallback score [k] is an
    integer from 0 to 100, the feedback starts with it, and its tier is
    the one of [k]: "Good!" for [k > 70], "on the right track" for
    [40 < k <= 70], "needs more detail" for [k <= 40]. *)
Theorem fallback_tier_bands (u i : string) :
  tokens i <> [] ->
  exists k,
    0 <= k <= 100 /\
    score (fallbackEvaluation u i) = Num (inject_Z k) /\
    ((70 < k /\
      feedback (fallbackEvaluation u i)
      = fallback_head k +:+ "Good! Your answer covers many key concepts.")
     \/ (40 < k <= 70 /\
      feedback (fallbackEvaluation u i)
      = fallback_head k +:+
        "You're on the right track, but could expand more on key concepts.")
     \/ (k <= 40 /\
      feedback (fallbackEvaluation u i)
      = fallback_head k +:+
        "Your answer needs more detail. Review the ideal answer for key points.")).
Proof.
  intros Hne. rewrite (fallbackEvaluation_percent u i Hne).
  set (k := percent (Z.of_nat (overlap (tokens u) (tokens i)))
                    (Z.of_nat (length (tokens i)))).
  assert (Hk : 0 <= k <= 100).
  { apply percent_range.
    - pose proof (overlap_le (tokens u) (tokens i)). lia.
    - destruct (tokens i); [congruence | cbn [length]; lia]. }
  exists k. split; [exact Hk|]. split; [reflexivity|].
  unfold fallback_result. cbn [feedback]. fold (fallback_head k).
  rewrite !gt_int.
  destruct (70 <? k) eqn:H70.
  - left. apply Z.ltb_lt in H70. split; [exact H70 | reflexivity].
  - apply Z.ltb_ge in H70. right. destruct (40 <? k) eqn:H40.
    + left. apply Z.ltb_lt in H40. split; [lia | reflexivity].
    + right. apply Z.ltb_ge in H40. split; [exact H40 | reflexivity].
Qed.

(** X9, at the example pair. *)
Lemma fallback_tier_bands_witness :
  exists k,
    0 <= k <= 100 /\
    score (fallbackEvaluation example_user example_ideal) = Num (inject_Z k).
Proof.
  destruct (fallback_tier_bands example_user example_ideal) as (k & Hk & Hs & _);
    [discriminate|].
  exists k. split; assumption.
Defined.

End Feedback.

(** ** Evaluation requests and routes *)

Section Server.

(** X10. An extractor that throws is recovered from: with a loaded
    model and a pair that passes the guard, [evaluateAnswer] returns
    what [fallbackEvaluation] returns if the extractor throws on the
    user answer, in which case it is not called on the ideal answer,
    and also if it throws on the ideal answer. *)
Theorem evaluateAnswer_extractor_failure (lib : Transformers) (p : Process)
    (u i : string) (extractor : Extractor) (e : JsError) :
  u <> "" -> i <> "" -> i <> "N/A" ->
  fst (getInstance lib p) = Some extractor ->
  let p1 := snd (getInstance lib p) in
  (extractor u = Throw e ->
   evaluateAnswer lib p (Some u) (Some i)
   = (fallbackEvaluation u i, called_extractor p1)) /\
  (forall userEmbedding,
     extractor u = Ok userEmbedding -> extractor i = Throw e ->
     evaluateAnswer lib p (Some u) (Some i)
     = (fallbackEvaluation u i, called_extractor (called_extractor p1))).
Proof.
  intros Hu Hi Hna Hex p1. subst p1. unfold evaluateAnswer.
  rewrite (passes_guard u i Hu Hi Hna). cbn [template].
  destruct (getInstance lib p) as [[ex|] p1]; cbn [fst snd] in *; [|discriminate].
  injection Hex as ->. unfold embedding_path. split.
  - intros H. rewrite H. reflexivity.
  - intros t H1 H2. rewrite H1, H2. reflexivity.
Qed.

(** X10, at an extractor that throws on the ideal answer. *)
Lemma evaluateAnswer_extractor_failure_witness :
  fst (evaluateAnswer lib_broken process_start (Some "yes") (Some "no"))
  = fallbackEvaluation "yes" "no".
Proof.
  destruct (evaluateAnswer_extractor_failure lib_broken process_start "yes" "no"
              broken_extractor (native KError "Unsupported input"))
    as [_ H]; [discriminate | discriminate | discriminate | reflexivity |].
  rewrite (H unit_x eq_refl eq_refl). reflexivity.
Defined.

(** X11. A call of [evaluateAnswer] made while the first load is still
    in progress does not wait for it: for a pair that passes the guard
    it returns what [fallbackEvaluation] returns and leaves the process
    as it is. *)
Theorem evaluateAnswer_while_loading (lib : Transformers) (p : Process)
    (u i : string) :
  u <> "" -> i <> "" -> i <> "N/A" ->
  loading (EP p) = true -> instance (EP p) = None ->
  evaluateAnswer lib p (Some u) (Some i) = (fallbackEvaluation u i, p).
Proof.
  intros Hu Hi Hna Hl Hn. unfold evaluateAnswer.
  rewrite (passes_guard u i Hu Hi Hna), (getInstance_loading lib p Hl), Hn.
  reflexivity.
Qed.

(** X11, at the example pair. *)
Lemma evaluateAnswer_while_loading_witness :
  evaluateAnswer lib_up process_loading (Some example_user) (Some example_ideal)
  = (fallbackEvaluation example_user example_ideal, process_loading).
Proof.
  apply evaluateAnswer_while_loading;
    [discriminate | discriminate | discriminate | reflexivity | reflexivity].
Defined.

Lemma getInstance_effect (lib : Transformers) (p : Process) :
  let '(v, p') := getInstance lib p in
  instance (EP p') = (if loading (EP p) then instance (EP p) else v) /\
  extractor_calls p' = extractor_calls p /\
  (pipeline_calls p <= pipeline_calls p' <= S (pipeline_calls p))%nat /\
  (settled p -> settled p') /\
  (forall h, instance (EP p) = Some h -> p' = p /\ v = Some h).
Proof.
  unfold getInstance, getInstance_start.
  destruct (instance (EP p)) as [h|] eqn:Hi; cbn [is_null andb].
  - rewrite Hi. split; [destruct (loading (EP p)); reflexivity|].
    split; [reflexivity|]. split; [lia|]. split; [auto|].
    intros h' H. injection H as <-. split; reflexivity.
  - destruct (loading (EP p)) eqn:Hl; cbn [negb].
    + rewrite Hi. split; [reflexivity|]. split; [reflexivity|]. split; [lia|].
      split; [auto | discriminate].
    + unfold getInstance_settle.
      destruct (pipeline lib (pipeline_calls p)); cbn;
        (split; [reflexivity|]; split; [reflexivity|]; split; [lia|];
         split; [|discriminate]; intros _; split; [reflexivity|];
         intros h' H; try discriminate; reflexivity).
Qed.

(** X12. Whatever its arguments, a call of [evaluateAnswer] starts at
    most one load and calls the extractor at most twice; it leaves no
    load in progress and no error beside a cached handle if it found
    none; and once a handle is cached, it changes neither the fields of
    the singleton nor the number of loads. *)
Theorem evaluateAnswer_process (lib : Transformers) (p : Process)
    (userAnswer idealAnswer : option string) :
  let p' := snd (evaluateAnswer lib p userAnswer idealAnswer) in
  (settled p -> settled p') /\
  (forall h, instance (EP p) = Some h ->
     EP p' = EP p /\ pipeline_calls p' = pipeline_calls p) /\
  (pipeline_calls p <= pipeline_calls p' <= S (pipeline_calls p))%nat /\
  (extractor_calls p <= extractor_calls p' <= extractor_calls p + 2)%nat.
Proof.
  intros p'. subst p'. unfold evaluateAnswer.
  destruct (cannot_evaluate userAnswer idealAnswer).
  { cbn [snd]. split; [auto|]. split; [auto|]. split; lia. }
  pose proof (getInstance_effect lib p) as G.
  destruct (getInstance lib p) as [[ex|] p1];
    destruct G as (_ & Gx & Gp & Gs & Gh).
  2:{ cbn [snd]. split; [exact Gs|]. split; [|split; lia].
      intros h H. destruct (Gh h H) as [-> _]. split; reflexivity. }
  assert (Hfin : forall q : Process,
             EP q = EP p1 -> pipeline_calls q = pipeline_calls p1 ->
             (extractor_calls p1 <= extractor_calls q <= extractor_calls p1 + 2)%nat ->
             (settled p -> settled q) /\
             (forall h, instance (EP p) = Some h ->
                EP q = EP p /\ pipeline_calls q = pipeline_calls p) /\
             (pipeline_calls p <= pipeline_calls q <= S (pipeline_calls p))%nat /\
             (extractor_calls p <= extractor_calls q <= extractor_calls p + 2)%nat).
  { intros q He Hp Hx. split; [|split; [|split; lia]].
    - intros Hs. specialize (Gs Hs). unfold settled in *. rewrite He. exact Gs.
    - intros h H. destruct (Gh h H) as [-> _]. split; assumption. }
  unfold embedding_path.
  destruct (ex (template userAnswer)); [|apply Hfin; cbn; try reflexivity; lia].
  destruct (ex (template idealAnswer)); apply Hfin; cbn; try reflexivity; lia.
Qed.

(** X12, at the first call, whose load fails. *)
Lemma evaluateAnswer_process_witness :
  settled (snd (evaluateAnswer lib_retry process_start (Some "yes") (Some "no"))).
Proof.
  apply (evaluateAnswer_process lib_retry process_start (Some "yes") (Some "no")).
  split; [reflexivity | discriminate].
Defined.











End Server.

(** ** Generated questions *)

Section GeneratedQuestions.

Lemma get_prop_error (v : JsVal) (k : string) (e : JsError) :
  get_prop v k = Throw e -> response e = None.
Proof. destruct v; cbn; intros H; try discriminate; injection H as <-; reflexivity. Qed.

Lemma extract_text_error (data : JsVal) (e : JsError) :
  extract_text data = Throw e -> response e = None.
Proof.
  unfold extract_text. destruct data; cbn; intros H; try discriminate;
    try (injection H as <-; reflexivity).
  destruct (truthy (assoc "generated_text" fields)); [discriminate|].
  injection H as <-. reflexivity.
Qed.

Lemma parse_text_error (w : World) (topic subTopic : string) (textData : JsVal)
    (e : JsError) :
  (forall s e', JSON_parse w s = Throw e' -> response e' = None) ->
  parse_text w topic subTopic textData = Throw e -> response e = None.
Proof.
  intros Hjson. unfold parse_text.
  destruct textData; try (intros H; injection H as <-; reflexivity).
  destruct (match_object s) as [m|]; [|discriminate].
  destruct (JSON_parse w m) as [parsed|e'] eqn:Hp; cbn [mbind JsResult_bind].
  2:{ intros H. injection H as <-. exact (Hjson m e' Hp). }
  destruct (get_prop parsed "question") as [q|e1] eqn:H1; cbn [mbind JsResult_bind].
  2:{ intros H. injection H as <-. exact (get_prop_error _ _ _ H1). }
  destruct (get_prop parsed "ideal_answer") as [a|e2] eqn:H2; cbn [mbind JsResult_bind].
  2:{ intros H. injection H as <-. exact (get_prop_error _ _ _ H2). }
  discriminate.
Qed.

(** In a scope without [previousQuestions], the [try] throws, and what
    it throws carries the status 503 only if the remote call was
    rejected with it. *)
Lemma try_block_error (w : World) (sc : gmap string Binding)
    (topic subTopic : string) (difficulty : option string) :
  sc !! "previousQuestions" = None ->
  (forall s e, JSON_parse w s = Throw e -> response e = None) ->
  exists e,
    try_block w sc topic subTopic difficulty = (Throw e, sc) /\
    status_is 503 e = rejected_503 w (request w topic subTopic difficulty).
Proof.
  intros Hsc Hjson. unfold try_block, store_history, rejected_503. rewrite Hsc.
  destruct (axios_post w (request w topic subTopic difficulty)) as [data|e0];
    cbn [mbind JsResult_bind].
  2:{ exists e0. split; reflexivity. }
  destruct (extract_text data) as [textData|e1] eqn:H1; cbn [mbind JsResult_bind].
  2:{ exists e1. split; [reflexivity|]. unfold status_is.
      rewrite (extract_text_error _ _ H1). reflexivity. }
  destruct (parse_text w topic subTopic textData) as [result|e2] eqn:H2.
  - eexists. split; reflexivity.
  - exists e2. split; [reflexivity|]. unfold status_is.
    rewrite (parse_text_error _ _ _ _ _ Hjson H2). reflexivity.
Qed.

(** X16. What [generateQuestion] returns is decided by the rejection of
    the remote call and the clock alone: in a scope without
    [previousQuestions], with a [JSON.parse] whose errors carry no HTTP
    response, the result is the "model is loading" pair if the call was
    rejected with status 503, and otherwise the fallback template of
    index [floor(now / 1000) mod 5], whatever the remote service sent
    back and whatever the difficulty. *)
Theorem generateQuestion_closed_form (w : World) (sc : gmap string Binding)
    (topic subTopic : string) (difficulty : option string) :
  sc !! "previousQuestions" = None ->
  (forall s e, JSON_parse w s = Throw e -> response e = None) ->
  0 <= Date_now w <= max_time ->
  generateQuestion w sc topic subTopic difficulty
  = (Ok (if rejected_503 w (request w topic subTopic difficulty)
         then Some model_loading
         else nth_error (fallbackQuestions topic subTopic)
                        (Z.to_nat ((Date_now w / 1000) mod 5))),
     sc).
Proof.
  intros Hsc Hjson Hnow.
  destruct (try_block_error w sc topic subTopic difficulty Hsc Hjson) as (e & He & Hs).
  unfold generateQuestion. rewrite He. unfold catch_block. rewrite Hs.
  destruct (rejected_503 w (request w topic subTopic difficulty)); [reflexivity|].
  rewrite catch_index, unixSeconds_exact by lia. reflexivity.
Qed.

(** X16, at a response that the JSON-object path parses. *)
Lemma generateQuestion_closed_form_witness :
  generateQuestion world_json module_scope "Data Structures" "Hash Tables" None
  = (Ok (nth_error (fallbackQuestions "Data Structures" "Hash Tables") 4),
     module_scope).
Proof.
  apply (generateQuestion_closed_form world_json module_scope
           "Data Structures" "Hash Tables" None).
  - reflexivity.
  - intros s e. cbn [JSON_parse world_json].
    destruct (String.eqb s json_text); [discriminate|].
    intros H. injection H as <-. reflexivity.
  - unfold max_time. cbn. lia.
Defined.

Lemma length_append (s t : string) :
  String.length (s +:+ t) = (String.length s + String.length t)%nat.
Proof.
  induction s as [|c s IH]; [reflexivity|].
  rewrite app_cons. cbn [String.length]. rewrite IH. reflexivity.
Qed.

Lemma longer_than_sentinel (s t : string) :
  (3 < String.length t)%nat -> s +:+ t <> "N/A".
Proof.
  intros H E. apply (f_equal String.length) in E.
  rewrite length_append in E. cbn in E. lia.
Qed.

(** The ideal answer of every fallback template is a string that the
    guard of [evaluateAnswer] lets through. *)
Lemma fallbackQuestions_evaluable (topic subTopic : string) (j : nat) :
  (j < 5)%nat ->
  exists r a, nth_error (fallbackQuestions topic subTopic) j = Some r
              /\ ideal_answer r = JStr a /\ a <> "" /\ a <> "N/A".
Proof.
  intros Hj.
  do 5 (destruct j as [|j]; [eexists _, _; split; [reflexivity|];
    split; [reflexivity|]; split;
    [ try discriminate; apply append_nonempty_r; discriminate
    | try discriminate; apply longer_than_sentinel;
      rewrite !length_append; cbn; lia ] |]).
  lia.
Qed.

(** X17. The ideal answer that [generateQuestion] returns is a string,
    and it decides whether answers to the question can be scored: after
    a rejection with status 503 it is the sentinel "N/A", for which
    [evaluateAnswer] returns "Could not evaluate answer." whatever the
    user answer; in every other case it passes the guard of
    [evaluateAnswer] together with any non-empty user answer. *)
Theorem generated_answer_evaluable (w : World) (sc : gmap string Binding)
    (topic subTopic : string) (difficulty : option string) :
  sc !! "previousQuestions" = None ->
  (forall s e, JSON_parse w s = Throw e -> response e = None) ->
  0 <= Date_now w <= max_time ->
  exists r a,
    fst (generateQuestion w sc topic subTopic difficulty) = Ok (Some r) /\
    ideal_answer r = JStr a /\
    (rejected_503 w (request w topic subTopic difficulty) = true ->
     forall lib p userAnswer,
       evaluateAnswer lib p userAnswer (Some a) = (could_not_evaluate, p)) /\
    (rejected_503 w (request w topic subTopic difficulty) = false ->
     forall u, u <> "" -> cannot_evaluate (Some u) (Some a) = false).
Proof.
  intros Hsc Hjson Hnow.
  destruct (try_block_error w sc topic subTopic difficulty Hsc Hjson) as (e & He & Hs).
  unfold generateQuestion. rewrite He. unfold catch_block. rewrite Hs. cbn [fst].
  destruct (rejected_503 w (request w topic subTopic difficulty)).
  - exists model_loading, "N/A". split; [reflexivity|]. split; [reflexivity|].
    split; [|discriminate]. intros _ lib p u. unfold evaluateAnswer.
    replace (cannot_evaluate u (Some "N/A")) with true; [reflexivity|].
    unfold cannot_evaluate. rewrite orb_true_r. reflexivity.
  - rewrite catch_index by lia.
    destruct (fallbackQuestions_evaluable topic subTopic
                (Z.to_nat (unixSeconds w mod 5))) as (r & a & Hr & Ha & Hne & Hna).
    { pose proof (Z.mod_pos_bound (unixSeconds w) 5 ltac:(lia)). lia. }
    exists r, a. cbn [mret JsResult_ret]. rewrite Hr.
    split; [reflexivity|]. split; [exact Ha|]. split; [discriminate|].
    intros _ u Hu. apply passes_guard; assumption.
Qed.

(** X17, at a call rejected with 503. *)
Lemma generated_answer_evaluable_witness :
  exists r a,
    fst (generateQuestion world_503 module_scope "Python" "Decorators" None)
    = Ok (Some r) /\
    ideal_answer r = JStr a /\
    evaluateAnswer lib_up process_start (Some "A decorator wraps a function")
                   (Some a)
    = (could_not_evaluate, process_start).
Proof.
  destruct (generated_answer_evaluable world_503 module_scope "Python" "Decorators" None)
    as (r & a & H1 & H2 & H3 & _).
  - reflexivity.
  - intros s e H. injection H as <-. reflexivity.
  - unfold max_time. cbn. lia.
  - exists r, a. split; [exact H1|]. split; [exact H2|]. apply H3. reflexivity.
Defined.

Lemma index_int {A} (l : list A) (k : Z) :
  0 <= k -> index l (Num (inject_Z k)) = nth_error l (Z.to_nat k).
Proof.
  intros Hk. unfold index.
  assert (H1 : Qle_bool 0 (inject_Z k) = true)
    by (apply Qle_bool_iff; rewrite <- (Zle_Qle 0); exact Hk).
  rewrite H1, Qfloor_Z.
  assert (H2 : Qeq_bool (inject_Z k) (inject_Z k) = true)
    by (apply Qeq_bool_iff; reflexivity).
  rewrite H2. reflexivity.
Qed.

Lemma random_floor (r : Q) (c : Z) :
  (0 <= r)%Q -> (r <= max_random)%Q -> 0 < c ->
  0 <= Qfloor (fl (r * inject_Z c)) <= Qfloor (fl (max_random * inject_Z c)).
Proof.
  intros H0 H1 Hc.
  assert (Hc' : (0 < inject_Z c)%Q) by (rewrite <- (Zlt_Qlt 0); exact Hc).
  assert (Hx : (0 <= r * inject_Z c)%Q) by (apply Qmult_le_0_compat; lra).
  assert (Hxy : (r * inject_Z c <= max_random * inject_Z c)%Q)
    by (apply Qmult_le_compat_r; lra).
  split.
  - rewrite <- (Qfloor_Z 0). apply Qfloor_resp_le. apply fl_nonneg. exact Hx.
  - apply Qfloor_resp_le. apply fl_mono; assumption.
Qed.

(** X18. When [Math.random()] returns numbers from 0 up to 1 - 2^-53,
    the seed of the prompt is an integer from 0 to 9999 and the verb of
    the prompt is one of the five variations, never [undefined]. *)
Theorem prompt_randomness (w : World) :
  (forall k, 0 <= Math_random w k /\ Math_random w k <= max_random)%Q ->
  (exists n, randomSeed w = Num (inject_Z n) /\ 0 <= n <= 9999) /\
  (exists v, randomVariation w = Some v /\ In v variations).
Proof.
  intros H. split.
  - destruct (H 0%nat) as [H0 H1].
    exists (Qfloor (fl (Math_random w 0%nat * inject_Z 10000))).
    split; [reflexivity|].
    pose proof (random_floor _ 10000 H0 H1 ltac:(lia)) as Hr.
    replace (Qfloor (fl (max_random * inject_Z 10000))) with 9999 in Hr
      by (vm_compute; reflexivity).
    exact Hr.
  - destruct (H 1%nat) as [H0 H1].
    pose proof (random_floor _ 5 H0 H1 ltac:(lia)) as Hr.
    replace (Qfloor (fl (max_random * inject_Z 5))) with 4 in Hr
      by (vm_compute; reflexivity).
    unfold randomVariation.
    change (Math_floor (mul (Num (Math_random w 1%nat)) (of_nat (length variations))))
      with (Num (inject_Z (Qfloor (fl (Math_random w 1%nat * inject_Z 5))))).
    rewrite index_int by lia.
    set (k := Qfloor (fl (Math_random w 1%nat * inject_Z 5))) in *.
    assert (Hk : k = 0 \/ k = 1 \/ k = 2 \/ k = 3 \/ k = 4) by lia.
    destruct Hk as [->|[->|[->|[->| ->]]]]; eexists; (split; [reflexivity|]);
      cbn; auto 6.
Qed.

(** X18, at the draws 1/4 and 3/4. *)
Lemma prompt_randomness_witness :
  exists v, randomVariation world_timeout = Some v /\ In v variations.
Proof.
  apply (prompt_randomness world_timeout). intros k.
  destruct k as [|k]; split; unfold Qle; vm_compute; discriminate.
Defined.

Lemma or_else_truthy (a b : JsVal) : truthy b = true -> truthy (or_else a b) = true.
Proof. intros H. unfold or_else. destruct (truthy a) eqn:Ha; assumption. Qed.

Lemma truthy_nonempty (s : string) : s <> "" -> truthy (JStr s) = true.
Proof. destruct s; [congruence | reflexivity]. Qed.

(** X19. A response is parsed only if its text is a string, and neither
    field of the parsed result is ever falsy: a missing or empty
    [question] or [ideal_answer] is replaced by its placeholder. *)
Theorem parse_text_fields (w : World) (topic subTopic : string)
    (textData : JsVal) (r : QuestionResult) :
  parse_text w topic subTopic textData = Ok r ->
  (exists s, textData = JStr s) /\
  truthy (question r) = true /\ truthy (ideal_answer r) = true.
Proof.
  unfold parse_text. destruct textData; try discriminate.
  intros H. split; [eexists; reflexivity|].
  destruct (match_object s) as [m|].
  - destruct (JSON_parse w m) as [parsed|]; cbn [mbind JsResult_bind] in H;
      [|discriminate].
    destruct (get_prop parsed "question") as [q|]; cbn [mbind JsResult_bind] in H;
      [|discriminate].
    destruct (get_prop parsed "ideal_answer") as [a|]; cbn [mbind JsResult_bind] in H;
      [|discriminate].
    injection H as <-. cbn [question ideal_answer].
    split; apply or_else_truthy; reflexivity.
  - injection H as <-. cbn [question ideal_answer]. split; [|reflexivity].
    apply or_else_truthy, truthy_nonempty. discriminate.
Qed.

(** X19, at the raw text of the specification. *)
Lemma parse_text_fields_witness :
  truthy (question {| question := JStr raw_text;
                      ideal_answer := JStr generic_ideal_answer |}) = true.
Proof.
  apply (parse_text_fields world_raw_text "Data Structures" "Hash Tables"
           (JStr raw_text)).
  reflexivity.
Defined.

(** The question built from a text without a JSON object. *)
Lemma parse_blank (w : World) (topic subTopic s : string) :
  match_object s = None -> trim s = "" ->
  parse_text w topic subTopic (JStr s)
  = Ok {| question :=
            JStr ("What are the key concepts of " +:+ subTopic +:+ " in " +:+
                  topic +:+ "?");
          ideal_answer := JStr generic_ideal_answer |}.
Proof.
  intros Hm Ht. unfold parse_text. rewrite Hm, Ht. reflexivity.
Qed.

(** X20. An array response whose first element has no usable
    [generated_text] (an empty array included) is not an error: its
    text is the empty string, and the parsed result is the question
    "What are the key concepts of <subTopic> in <topic>?" with the
    generic ideal answer. *)
Theorem missing_text_default_question (w : World) (topic subTopic : string)
    (items : list JsVal) :
  truthy (get_prop_opt (hd JUndefined items) "generated_text") = false ->
  (textData ← extract_text (JArr items); parse_text w topic subTopic textData)
  = Ok {| question :=
            JStr ("What are the key concepts of " +:+ subTopic +:+ " in " +:+
                  topic +:+ "?");
          ideal_answer := JStr generic_ideal_answer |}.
Proof.
  intros H. unfold extract_text, or_else. rewrite H.
  cbn [mret JsResult_ret mbind JsResult_bind].
  apply parse_blank; reflexivity.
Qed.

(** X20, at a first element that holds an error message only. *)
Lemma missing_text_default_question_witness :
  (textData ← extract_text (JArr [JObj [("error", JStr "overloaded")]]);
   parse_text world_raw_text "Python" "Decorators" textData)
  = Ok {| question := JStr "What are the key concepts of Decorators in Python?";
          ideal_answer := JStr generic_ideal_answer |}.
Proof. apply missing_text_default_question. reflexivity. Defined.

Lemma upto_close_fixpoint (s m : string) :
  upto_close s = Some m -> upto_close m = Some m.
Proof.
  intros H. apply upto_close_spec in H. destruct H as (body & post & _ & Hl & ->).
  apply upto_close_spec. exists body, EmptyString.
  split; [reflexivity|]. split; [exact Hl | reflexivity].
Qed.

Lemma match_object_fixpoint (s m : string) :
  match_object s = Some m -> match_object m = Some m.
Proof.
  induction s as [|c s IH]; cbn [match_object]; [discriminate|].
  destruct (code c =? 123)%N eqn:Hc; [|exact IH].
  destruct (upto_close s) as [m'|] eqn:Hu; [|discriminate].
  cbn [option_map]. intros H. injection H as <-.
  cbn [match_object]. rewrite Hc, (upto_close_fixpoint s m' Hu). reflexivity.
Qed.

(** X21. Text around the JSON object is ignored: a response text in
    which the pattern matches [m] is parsed as [m] alone is. *)
Theorem parse_text_ignores_surroundings (w : World) (topic subTopic s m : string) :
  match_object s = Some m ->
  parse_text w topic subTopic (JStr s) = parse_text w topic subTopic (JStr m).
Proof.
  intros H. unfold parse_text. rewrite H, (match_object_fixpoint s m H). reflexivity.
Qed.

(** X21, at a JSON object between two sentences. *)
Lemma parse_text_ignores_surroundings_witness :
  parse_text world_json "Data Structures" "Hash Tables"
    (JStr ("Sure! Here is the JSON: " +:+ json_text +:+ " Hope this helps {:"))
  = parse_text world_json "Data Structures" "Hash Tables" (JStr json_text).
Proof. apply parse_text_ignores_surroundings. reflexivity. Defined.

Lemma fallbackQuestions_distinct (topic subTopic : string) (j k : nat)
    (r : QuestionResult) :
  nth_error (fallbackQuestions topic subTopic) j = Some r ->
  nth_error (fallbackQuestions topic subTopic) k = Some r ->
  j = k.
Proof.
  intros Hj Hk.
  do 5 (try destruct j as [|j]); do 5 (try destruct k as [|k]);
    try reflexivity;
    try (cbn in Hj; destruct j; discriminate);
    try (cbn in Hk; destruct k; discriminate);
    cbv in Hj, Hk; rewrite <- Hk in Hj; discriminate.
Qed.

Lemma catch_block_template (w : World) (topic subTopic : string) (e : JsError) :
  ~ carries_status 503 e -> 0 <= Date_now w <= max_time ->
  catch_block w topic subTopic e
  = Ok (nth_error (fallbackQuestions topic subTopic)
                  (Z.to_nat ((Date_now w / 1000) mod 5))).
Proof.
  intros Hs Hnow. unfold catch_block.
  destruct (status_is 503 e) eqn:H; [exfalso; apply Hs, status_is_spec, H|].
  rewrite catch_index, unixSeconds_exact by lia. reflexivity.
Qed.

(** X22. For an error without status 503 the fallback templates rotate
    with the seconds: five seconds later the same template is
    returned, one second later a different one. *)
Theorem fallback_rotation (w w' : World) (topic subTopic : string) (e : JsError) :
  ~ carries_status 503 e ->
  0 <= Date_now w <= max_time -> 0 <= Date_now w' <= max_time ->
  (Date_now w' = Date_now w + 5000 ->
   catch_block w' topic subTopic e = catch_block w topic subTopic e) /\
  (Date_now w' = Date_now w + 1000 ->
   catch_block w' topic subTopic e <> catch_block w topic subTopic e).
Proof.
  intros Hs Hnow Hnow'.
  rewrite !catch_block_template by assumption.
  pose proof (Z.mod_pos_bound (Date_now w / 1000) 5 ltac:(lia)) as Hm.
  split; intros Hd; rewrite Hd.
  - replace (Date_now w + 5000) with (Date_now w + 5 * 1000) by lia.
    rewrite Z.div_add, Z.add_mod, Z.mod_same, Z.add_0_r, Z.mod_mod by lia.
    reflexivity.
  - replace (Date_now w + 1000) with (Date_now w + 1 * 1000) by lia.
    rewrite Z.div_add by lia.
    pose proof (Z.mod_pos_bound (Date_now w / 1000 + 1) 5 ltac:(lia)) as Hm'.
    assert (Hne : (Date_now w / 1000 + 1) mod 5 <> (Date_now w / 1000) mod 5).
    { clear. Z.to_euclidean_division_equations. lia. }
    intros E. injection E as E.
    destruct (fallbackQuestions_nonempty topic subTopic
                (Z.to_nat ((Date_now w / 1000) mod 5))) as (r & Hr & _); [lia|].
    rewrite Hr in E.
    pose proof (fallbackQuestions_distinct topic subTopic _ _ r E Hr) as Hjk.
    lia.
Qed.

(** X22, at a timeout and the same timeout five seconds later. *)
Lemma fallback_rotation_witness :
  catch_block world_timeout_later "Python" "Decorators" timeout_error
  = catch_block world_timeout "Python" "Decorators" timeout_error.
Proof.
  apply (fallback_rotation world_timeout world_timeout_later).
  - intros (r & Hr & _). discriminate.
  - unfold max_time. cbn. lia.
  - unfold max_time. cbn. lia.
  - reflexivity.
Defined.

End GeneratedQuestions.
